(** * Skill auto-activation

    A shallow embedding of [.claude-library/hooks/scripts/skill_activator.py]:
    the prompt scorer ([analyze_prompt]), the file-context scorer
    ([analyze_file_context]) with its glob-to-regex translation, and the
    activation engine ([main]) that merges, ranks and truncates the matches.

    Conventions of the embedding.
    - A Python [str] is a list of characters ([list ascii], code points
      below 256).
    - A JSON object read with [.get(key, default)] is a record of optional
      fields; the [skills] dict is an association list in insertion order.
    - A Python [set] of names is a duplicate-free list; the order in which a
      [for] loop visits it is not fixed by the language and is supplied by an
      iteration oracle [set_iter].
    - Exceptions are values of [result]; [try ... except re.error] is written
      out where the source has it.
    - The [re] module is an interface: [re_module] is what its
      documentation promises (a match, no match, [re.error]); [re_impl] is
      an implementation, which may also leave a call with another
      exception; the scorers take an [re_impl].  [Frag] gives the semantics
      on the fragment of the syntax that the glob translation produces.
    - [score / max_score >= threshold] is binary64 arithmetic ([PrimFloat]). *)

From Stdlib Require Import Ascii String List ZArith Lia Bool Arith.
From Stdlib Require Import Permutation Sorted Floats Uint63.
Import ListNotations.

Set Implicit Arguments.

(** ** Python strings *)

Definition str := list ascii.

Coercion list_ascii_of_string : string >-> list.

Open Scope string_scope.
Open Scope list_scope.
Open Scope nat_scope.

Definition str_eq_dec : forall a b : str, {a = b} + {a <> b} :=
  list_eq_dec ascii_dec.

Definition str_eqb (a b : str) : bool :=
  if str_eq_dec a b then true else false.

(** [str.lower] on code points below 256: [A-Z] and the Latin-1 capitals
    U+00C0..U+00DE (without the multiplication sign U+00D7) move up by 32. *)
Definition lower_char (c : ascii) : ascii :=
  let n := nat_of_ascii c in
  if ((65 <=? n) && (n <=? 90))
     || ((192 <=? n) && (n <=? 222) && negb (n =? 215))
  then ascii_of_nat (n + 32)
  else c.

Definition lower (s : str) : str := map lower_char s.

(** [s.startswith(p)] *)
Fixpoint startswith (p s : str) : bool :=
  match p, s with
  | [], _ => true
  | _ :: _, [] => false
  | a :: p', b :: s' => Ascii.eqb a b && startswith p' s'
  end.

(** [needle in hay] *)
Fixpoint contains (needle hay : str) : bool :=
  startswith needle hay
  || match hay with
     | [] => false
     | _ :: hay' => contains needle hay'
     end.

(** [s.replace(old, new)]: leftmost, non-overlapping occurrences.  [skip]
    counts the characters of an occurrence of [old] still to be dropped. *)
Fixpoint replace_from (old new : str) (skip : nat) (s : str) : str :=
  match s with
  | [] => []
  | c :: rest =>
      match skip with
      | S k => replace_from old new k rest
      | O =>
          if startswith old s
          then new ++ replace_from old new (length old - 1) rest
          else c :: replace_from old new 0 rest
      end
  end.

Definition replace (old new s : str) : str :=
  match old with
  | [] => new ++ flat_map (fun c => c :: new) s
  | _ :: _ => replace_from old new 0 s
  end.

(** [sep.join(parts)] *)
Fixpoint join (sep : str) (parts : list str) : str :=
  match parts with
  | [] => []
  | [p] => p
  | p :: rest => p ++ sep ++ join sep rest
  end.

(** ** Exceptions *)

Inductive exn : Type :=
| re_error
| ZeroDivisionError
| KeyError
| OverflowError
| RecursionError.

Inductive result (A : Type) : Type :=
| Ok (a : A)
| Raise (e : exn).

Arguments Ok {A} a.
Arguments Raise {A} e.

Definition bind {A B : Type} (m : result A) (k : A -> result B) : result B :=
  match m with
  | Ok a => k a
  | Raise e => Raise e
  end.

Notation "x <- m ;; k" := (bind m (fun x => k))
  (at level 61, m at next level, right associativity).

(** ** Sets of names *)

Definition pyset := list str.

Definition set_mem (x : str) (s : pyset) : bool :=
  if in_dec str_eq_dec x s then true else false.

Definition set_add (x : str) (s : pyset) : pyset :=
  if in_dec str_eq_dec x s then s else s ++ [x].

(** [a | b] *)
Definition set_union (a b : pyset) : pyset :=
  fold_left (fun acc x => set_add x acc) b a.

(** ** The configuration (skill-rules.json, already parsed) *)

Record PromptTriggers : Type := {
  keywords : option (list str);
  intentPatterns : option (list str)
}.

Record FileTriggers : Type := {
  pathPatterns : option (list str)
}.

Record SkillConfig : Type := {
  promptTriggers : option PromptTriggers;
  fileTriggers : option FileTriggers;
  priority : option str;
  activationMessage : option str
}.

Record Meta : Type := {
  confidenceThreshold : option float;
  maxSimultaneousSkills : option Z;
  autoActivationEnabled : option bool
}.

Record SkillRules : Type := {
  skills : option (list (str * SkillConfig));
  meta : option Meta
}.

(** [d.get(key, default)] on an optional field *)
Definition get {A : Type} (field : option A) (default : A) : A :=
  match field with
  | Some v => v
  | None => default
  end.

Definition no_prompt_triggers : PromptTriggers :=
  {| keywords := None; intentPatterns := None |}.

Definition no_file_triggers : FileTriggers :=
  {| pathPatterns := None |}.

Definition no_meta : Meta :=
  {| confidenceThreshold := None;
     maxSimultaneousSkills := None;
     autoActivationEnabled := None |}.

(** [d[key]] on the skills dict *)
Fixpoint dict_getitem (d : list (str * SkillConfig)) (key : str)
  : result SkillConfig :=
  match d with
  | [] => Raise KeyError
  | (k, v) :: rest => if str_eqb k key then Ok v else dict_getitem rest key
  end.

(** ** The [re] module, as an interface *)

Inductive re_outcome : Type :=
| ReMatch      (* a match object *)
| ReNoMatch    (* None *)
| ReError.     (* raise re.error *)

Record re_module : Type := {
  (** [re.search(pattern, string, re.IGNORECASE)] *)
  re_search_ignorecase : str -> str -> re_outcome;
  (** [re.match(pattern, string)] *)
  re_match : str -> str -> re_outcome
}.

Definition outcome_result (o : re_outcome) : result bool :=
  match o with
  | ReMatch => Ok true
  | ReNoMatch => Ok false
  | ReError => Raise re_error
  end.

(** [re_module] is the interface as documented.  An implementation may
    also leave a call with an exception that is not [re.error]: CPython
    raises [OverflowError] for a repeat count that is too large and
    [RecursionError] for a pattern nested too deep. *)
Inductive re_call : Type :=
| Answers (o : re_outcome)
| Fails (e : exn).

Record re_impl : Type := {
  call_search_ignorecase : str -> str -> re_call;
  call_match : str -> str -> re_call
}.

(** An implementation that never leaves the documented interface. *)
Definition documented (re : re_module) : re_impl :=
  {| call_search_ignorecase pattern s :=
       Answers (re_search_ignorecase re pattern s);
     call_match pattern s := Answers (re_match re pattern s) |}.

Coercion documented : re_module >-> re_impl.

Definition call_result (c : re_call) : result bool :=
  match c with
  | Answers o => outcome_result o
  | Fails e => Raise e
  end.

(** ** True division and the threshold test *)

(** An int as a float; exact for the counts that occur (below 2^53). *)
Definition float_of_nat (n : nat) : float :=
  PrimFloat.of_uint63 (Uint63.of_Z (Z.of_nat n)).

(** [a / b] on ints *)
Definition true_div (a b : nat) : result float :=
  if b =? 0 then Raise ZeroDivisionError
  else Ok (PrimFloat.div (float_of_nat a) (float_of_nat b)).

(** [max_score > 0 and (score / max_score) >= threshold] *)
Definition threshold_met (score max_score : nat) (threshold : float)
  : result bool :=
  if 0 <? max_score
  then q <- true_div score max_score ;; Ok (PrimFloat.leb threshold q)
  else Ok false.

(** The default of [confidenceThreshold], the double written [0.6]. *)
Definition default_threshold : float := 0x1.3333333333333p-1%float.

(** ** Glob translation *)

Definition glob_to_regex (pattern : str) : str :=
  let regex_pattern := replace "*" "[^/]*" (replace "**" ".*" pattern) in
  replace "," "|" (replace "}" ")" (replace "{" "(" regex_pattern)).

(** ** Priorities *)

Definition priority_order : list (str * nat) :=
  [("high" : str, 0); ("medium" : str, 1); ("low" : str, 2)].

(** [priority_order.get(priority, default)] *)
Fixpoint order_get (d : list (str * nat)) (key : str) (default : nat) : nat :=
  match d with
  | [] => default
  | (k, v) :: rest => if str_eqb k key then v else order_get rest key default
  end.

(** [list.sort(key=...)]: the stable sort, by insertion from the right. *)
Fixpoint insert_by {A : Type} (key : A -> nat) (x : A) (l : list A) : list A :=
  match l with
  | [] => [x]
  | y :: l' => if key x <=? key y then x :: l else y :: insert_by key x l'
  end.

Fixpoint sort_by {A : Type} (key : A -> nat) (l : list A) : list A :=
  match l with
  | [] => []
  | x :: l' => insert_by key x (sort_by key l')
  end.

(** [l[:n]], with Python's reading of a negative bound *)
Definition slice_to {A : Type} (n : Z) (l : list A) : list A :=
  if (0 <=? n)%Z then firstn (Z.to_nat n) l
  else firstn (length l - Z.to_nat (- n)) l.

Section Activator.

Variable re : re_impl.

(** The order in which [for x in s] visits a set. *)
Variable set_iter : pyset -> list str.

(** *** analyze_prompt *)

(** [for keyword in keywords: if keyword.lower() in prompt_lower: score += 1] *)
Fixpoint score_keywords (keywords : list str) (prompt_lower : str)
    (score : nat) : nat :=
  match keywords with
  | [] => score
  | keyword :: rest =>
      if contains (lower keyword) prompt_lower
      then score_keywords rest prompt_lower (score + 1)
      else score_keywords rest prompt_lower score
  end.

(** [for pattern in patterns: try: if re.search(...): score += 2
    except re.error: continue] *)
Fixpoint score_patterns (patterns : list str) (prompt : str)
    (score : nat) : result nat :=
  match patterns with
  | [] => Ok score
  | pattern :: rest =>
      match call_result (call_search_ignorecase re pattern prompt) with
      | Ok true => score_patterns rest prompt (score + 2)
      | Ok false => score_patterns rest prompt score
      | Raise re_error => score_patterns rest prompt score
      | Raise e => Raise e
      end
  end.

(** The body of the loop over the skills: does this skill join [matches]? *)
Definition prompt_skill_matched (prompt : str) (skill_config : SkillConfig)
    (meta_ : Meta) : result bool :=
  let prompt_lower := lower prompt in
  let triggers := get (promptTriggers skill_config) no_prompt_triggers in
  let score := 0 in
  let keywords_ := get (keywords triggers) [] in
  let score := score_keywords keywords_ prompt_lower score in
  let patterns := get (intentPatterns triggers) [] in
  score <- score_patterns patterns prompt score ;;
  let threshold := get (confidenceThreshold meta_) default_threshold in
  let max_score := length keywords_ + length patterns * 2 in
  threshold_met score max_score threshold.

Fixpoint analyze_prompt_loop (prompt : str)
    (items : list (str * SkillConfig)) (meta_ : Meta) (matches : pyset)
  : result pyset :=
  match items with
  | [] => Ok matches
  | (skill_name, skill_config) :: rest =>
      matched <- prompt_skill_matched prompt skill_config meta_ ;;
      analyze_prompt_loop prompt rest meta_
        (if matched then set_add skill_name matches else matches)
  end.

Definition analyze_prompt (prompt : str) (skill_rules : SkillRules)
  : result pyset :=
  analyze_prompt_loop prompt (get (skills skill_rules) [])
    (get (meta skill_rules) no_meta) [].

(** *** analyze_file_context *)

(** The test of one pattern against one path: translate, then [re.match]. *)
Definition path_pattern_test (pattern file_path : str) : result bool :=
  call_result (call_match re (glob_to_regex pattern) file_path).

(** [for pattern in path_patterns: try: if re.match(...): matches.add;
    break except re.error: continue]; [true] when the skill was added. *)
Fixpoint patterns_loop (path_patterns : list str) (file_path : str)
  : result bool :=
  match path_patterns with
  | [] => Ok false
  | pattern :: rest =>
      match path_pattern_test pattern file_path with
      | Ok true => Ok true
      | Ok false => patterns_loop rest file_path
      | Raise re_error => patterns_loop rest file_path
      | Raise e => Raise e
      end
  end.

(** [for file_path in modified_files: ...] *)
Fixpoint files_loop (modified_files : list str) (path_patterns : list str)
    (skill_name : str) (matches : pyset) : result pyset :=
  match modified_files with
  | [] => Ok matches
  | file_path :: rest =>
      added <- patterns_loop path_patterns file_path ;;
      files_loop rest path_patterns skill_name
        (if added then set_add skill_name matches else matches)
  end.

Fixpoint analyze_file_context_loop (modified_files : list str)
    (items : list (str * SkillConfig)) (matches : pyset) : result pyset :=
  match items with
  | [] => Ok matches
  | (skill_name, skill_config) :: rest =>
      let file_triggers := get (fileTriggers skill_config) no_file_triggers in
      let path_patterns := get (pathPatterns file_triggers) [] in
      matches <- files_loop modified_files path_patterns skill_name matches ;;
      analyze_file_context_loop modified_files rest matches
  end.

(** [git_status] is what [git status --short] gave: the paths parsed from
    its output, or [None] when it exited non-zero, timed out or was not
    found (the set then stays empty). *)
Definition analyze_file_context (git_status : option (list str))
    (skill_rules : SkillRules) : result pyset :=
  match git_status with
  | None => Ok []
  | Some modified_files =>
      analyze_file_context_loop modified_files
        (get (skills skill_rules) []) []
  end.

(** *** main *)

(** [for skill_name in all_matches: ... prioritized.append(...)] *)
Fixpoint prioritize (names : list str) (skills_ : list (str * SkillConfig))
  : result (list (str * nat)) :=
  match names with
  | [] => Ok []
  | skill_name :: rest =>
      skill_config <- dict_getitem skills_ skill_name ;;
      let priority_ := get (priority skill_config) ("medium" : str) in
      tail <- prioritize rest skills_ ;;
      Ok ((skill_name, order_get priority_order priority_ 1) :: tail)
  end.

Definition reason_of (skill_name : str) (prompt_matches context_matches : pyset)
  : str :=
  let reasons := [] in
  let reasons :=
    if set_mem skill_name prompt_matches
    then reasons ++ [("Prompt keywords/patterns matched" : str)]
    else reasons in
  let reasons :=
    if set_mem skill_name context_matches
    then reasons ++ [("Modified files matched" : str)]
    else reasons in
  join " + " reasons.

(** The list [matched_with_reason] that [main] formats and prints; the
    early returns print nothing and are the empty list. *)
Definition main (prompt : str) (git_status : option (list str))
    (skill_rules : SkillRules) : result (list (str * str)) :=
  match skills skill_rules with
  | None | Some [] => Ok []
  | Some skills_ =>
      let meta_ := get (meta skill_rules) no_meta in
      if negb (get (autoActivationEnabled meta_) true) then Ok []
      else
        prompt_matches <- analyze_prompt prompt skill_rules ;;
        context_matches <- analyze_file_context git_status skill_rules ;;
        let all_matches := set_union prompt_matches context_matches in
        let max_skills := get (maxSimultaneousSkills meta_) 3%Z in
        prioritized <- prioritize (set_iter all_matches) skills_ ;;
        let prioritized := sort_by snd prioritized in
        let top_matches := slice_to max_skills prioritized in
        Ok (map (fun x => (fst x,
                           reason_of (fst x) prompt_matches context_matches))
                top_matches)
  end.

End Activator.

(** ** The [re] module on the fragment the glob translation produces

    Patterns made of literal characters, [.], the set [[^/]], the postfix
    [*], groups [( )] and alternation [|].  A pattern that uses anything else
    of the syntax (an escape, an anchor, [?], [+], a counted repeat, another
    character set) is [Unsupported]: outside the fragment. *)

Module Frag.

Inductive regex : Type :=
| Void                          (* matches nothing *)
| Eps                           (* the empty string *)
| Lit (c : ascii)
| Dot                           (* [.]: any character but a newline *)
| NotSlash                      (* [[^/]] *)
| Cat (r1 r2 : regex)
| Alt (r1 r2 : regex)
| Star (r : regex)
| Group (r : regex).

Inductive token : Type :=
| TLit (c : ascii)
| TDot
| TNotSlash
| TStar
| TOpen
| TClose
| TBar.

Definition newline : ascii := "010"%char.
Definition slash : ascii := "/"%char.

(** Characters that start syntax outside the fragment. *)
Definition outside (c : ascii) : bool :=
  existsb (Ascii.eqb c) ("\^$?+{" : str).

Definition token_of (c : ascii) : token :=
  if Ascii.eqb c "."%char then TDot
  else if Ascii.eqb c "*"%char then TStar
  else if Ascii.eqb c "("%char then TOpen
  else if Ascii.eqb c ")"%char then TClose
  else if Ascii.eqb c "|"%char then TBar
  else TLit c.

(** [None]: outside the fragment.  [skip] counts the characters of a set
    [[^/]] still to be passed over. *)
Fixpoint tokens_from (skip : nat) (s : str) : option (list token) :=
  match s with
  | [] => Some []
  | c :: rest =>
      match skip with
      | S k => tokens_from k rest
      | O =>
          if Ascii.eqb c "["%char then
            if startswith "^/]" rest
            then option_map (cons TNotSlash) (tokens_from 3 rest)
            else None
          else if outside c then None
          else option_map (cons (token_of c)) (tokens_from 0 rest)
      end
  end.

Definition tokenize (s : str) : option (list token) := tokens_from 0 s.

(** A group being parsed: the branches closed by [|] so far and the items
    of the current branch, both latest first. *)
Record frame : Type := {
  branches : list regex;
  items : list regex
}.

Definition empty_frame : frame := {| branches := []; items := [] |}.

Definition push (r : regex) (f : frame) : frame :=
  {| branches := branches f; items := r :: items f |}.

Definition sequence (items_ : list regex) : regex :=
  fold_right Cat Eps (rev items_).

Fixpoint alternation (first : regex) (others : list regex) : regex :=
  match others with
  | [] => first
  | r :: others' => Alt first (alternation r others')
  end.

Definition close (f : frame) : regex :=
  match rev (sequence (items f) :: branches f) with
  | [] => Eps
  | first :: others => alternation first others
  end.

(** [None]: [re.error] (nothing to repeat, multiple repeat, unbalanced
    parenthesis, missing parenthesis). *)
Fixpoint parse (toks : list token) (cur : frame) (stack : list frame)
  : option regex :=
  match toks with
  | [] =>
      match stack with
      | [] => Some (close cur)
      | _ :: _ => None
      end
  | TLit c :: toks' => parse toks' (push (Lit c) cur) stack
  | TDot :: toks' => parse toks' (push Dot cur) stack
  | TNotSlash :: toks' => parse toks' (push NotSlash cur) stack
  | TStar :: toks' =>
      match items cur with
      | [] => None
      | Star _ :: _ => None
      | r :: before =>
          parse toks'
            {| branches := branches cur; items := Star r :: before |} stack
      end
  | TOpen :: toks' => parse toks' empty_frame (cur :: stack)
  | TClose :: toks' =>
      match stack with
      | [] => None
      | parent :: stack' => parse toks' (push (Group (close cur)) parent) stack'
      end
  | TBar :: toks' =>
      parse toks'
        {| branches := sequence (items cur) :: branches cur; items := [] |}
        stack
  end.

Inductive compiled : Type :=
| Parsed (r : regex)
| Malformed                     (* raises [re.error] *)
| Unsupported.                  (* outside the fragment *)

Definition compile (pattern : str) : compiled :=
  match tokenize pattern with
  | None => Unsupported
  | Some toks =>
      match parse toks empty_frame [] with
      | Some r => Parsed r
      | None => Malformed
      end
  end.

(** *** Matching, by derivatives *)

Fixpoint nullable (r : regex) : bool :=
  match r with
  | Void | Lit _ | Dot | NotSlash => false
  | Eps | Star _ => true
  | Cat r1 r2 => nullable r1 && nullable r2
  | Alt r1 r2 => nullable r1 || nullable r2
  | Group r' => nullable r'
  end.

Section Matching.

(** How a literal of the pattern compares with a character of the
    subject: exactly, or up to case under [re.IGNORECASE]. *)
Variable ceq : ascii -> ascii -> bool.

Fixpoint deriv (c : ascii) (r : regex) : regex :=
  match r with
  | Void | Eps => Void
  | Lit a => if ceq a c then Eps else Void
  | Dot => if Ascii.eqb c newline then Void else Eps
  | NotSlash => if Ascii.eqb c slash then Void else Eps
  | Cat r1 r2 =>
      if nullable r1
      then Alt (Cat (deriv c r1) r2) (deriv c r2)
      else Cat (deriv c r1) r2
  | Alt r1 r2 => Alt (deriv c r1) (deriv c r2)
  | Star r' => Cat (deriv c r') (Star r')
  | Group r' => deriv c r'
  end.

(** Does [r] match a prefix of [s]?  ([re.match]) *)
Fixpoint match_prefix (r : regex) (s : str) : bool :=
  nullable r
  || match s with
     | [] => false
     | c :: s' => match_prefix (deriv c r) s'
     end.

(** Does [r] match somewhere in [s]?  ([re.search]) *)
Fixpoint search (r : regex) (s : str) : bool :=
  match_prefix r s
  || match s with
     | [] => false
     | _ :: s' => search r s'
     end.

(** Does [r] match the whole of [s]?  ([re.fullmatch]) *)
Fixpoint accepts (r : regex) (s : str) : bool :=
  match s with
  | [] => nullable r
  | c :: s' => accepts (deriv c r) s'
  end.

(** The strings a regex matches, end to end. *)
Inductive matches : regex -> str -> Prop :=
| MEps : matches Eps []
| MLit a c : ceq a c = true -> matches (Lit a) [c]
| MDot c : c <> newline -> matches Dot [c]
| MNotSlash c : c <> slash -> matches NotSlash [c]
| MCat r1 r2 u v :
    matches r1 u -> matches r2 v -> matches (Cat r1 r2) (u ++ v)
| MAltL r1 r2 u : matches r1 u -> matches (Alt r1 r2) u
| MAltR r1 r2 u : matches r2 u -> matches (Alt r1 r2) u
| MStarNil r : matches (Star r) []
| MStarApp r u v :
    matches r u -> matches (Star r) v -> matches (Star r) (u ++ v)
| MGroup r u : matches r u -> matches (Group r) u.

End Matching.

Definition ceq_exact (a c : ascii) : bool := Ascii.eqb a c.

Definition ceq_ignorecase (a c : ascii) : bool :=
  Ascii.eqb (lower_char a) (lower_char c).

Definition outcome_of (pattern : str) (test : regex -> bool) : re_outcome :=
  match compile pattern with
  | Parsed r => if test r then ReMatch else ReNoMatch
  | Malformed => ReError
  | Unsupported => ReError
  end.

(** The interface, filled in on the fragment.  Outside it the answer is a
    placeholder; whatever below depends on what [re] answers is stated for
    patterns of the fragment. *)
Definition re : re_module :=
  {| re_search_ignorecase pattern s :=
       outcome_of pattern (fun r => search ceq_ignorecase r s);
     re_match pattern s :=
       outcome_of pattern (fun r => match_prefix ceq_exact r s) |}.

(** An implementation of [re] agrees with the fragment when it answers as
    [compile] and [match_prefix] say on every pattern of the fragment. *)
Definition agrees (m : re_module) : Prop :=
  forall pattern s,
    match compile pattern with
    | Parsed r =>
        re_match m pattern s
        = if match_prefix ceq_exact r s then ReMatch else ReNoMatch
    | Malformed => re_match m pattern s = ReError
    | Unsupported => True
    end.

End Frag.

(** ** What the claims speak of *)

(** The rank the engine sorts a skill by: [priority_order.get(priority, 1)]
    of its [priority], read with default ["medium"]. *)
Definition rank_of_config (skill_config : SkillConfig) : nat :=
  order_get priority_order (get (priority skill_config) ("medium" : str)) 1.

Definition rank_of (skills_ : list (str * SkillConfig)) (skill_name : str)
  : nat :=
  match dict_getitem skills_ skill_name with
  | Ok skill_config => rank_of_config skill_config
  | Raise _ => 1
  end.

(** [x] comes before [y] in [l]. *)
Definition precedes {A : Type} (l : list A) (x y : A) : Prop :=
  exists l1 l2 l3, l = l1 ++ x :: l2 ++ y :: l3.

(** A set iteration order visits every element exactly once. *)
Definition iterates (set_iter : pyset -> list str) : Prop :=
  forall s, Permutation (set_iter s) s.

(** [main] gets past its two early returns. *)
Definition activation_enabled (skill_rules : SkillRules) : bool :=
  match skills skill_rules with
  | None | Some [] => false
  | Some _ => get (autoActivationEnabled (get (meta skill_rules) no_meta)) true
  end.

Definition max_skills_of (skill_rules : SkillRules) : Z :=
  get (maxSimultaneousSkills (get (meta skill_rules) no_meta)) 3%Z.

(** The prompt score, as the specification words it. *)
Definition keyword_occurs (prompt keyword : str) : bool :=
  contains (lower keyword) (lower prompt).

Definition pattern_found (re : re_module) (prompt pattern : str) : bool :=
  match re_search_ignorecase re pattern prompt with
  | ReMatch => true
  | ReNoMatch | ReError => false
  end.

Definition spec_score (re : re_module) (prompt : str)
    (keywords_ patterns : list str) : nat :=
  length (filter (keyword_occurs prompt) keywords_)
  + 2 * length (filter (pattern_found re prompt) patterns).

Definition spec_max_score (keywords_ patterns : list str) : nat :=
  length keywords_ + 2 * length patterns.

(** [re] with every [re.error] turned into "no match". *)
Definition quiet (re : re_module) : re_module :=
  let hush o := match o with ReError => ReNoMatch | _ => o end in
  {| re_search_ignorecase p s := hush (re_search_ignorecase re p s);
     re_match p s := hush (re_match re p s) |}.

(** Characters with no meaning to the glob translation or to [re]. *)
Definition special_chars : str := "*{},.()|[\^$?+".

Definition plain_char (c : ascii) : bool :=
  negb (existsb (Ascii.eqb c) special_chars).

Definition plain (s : str) : bool := forallb plain_char s.

(** A skill's [priority] is absent or is none of the three known names. *)
Definition unranked (skill_config : SkillConfig) : Prop :=
  match priority skill_config with
  | None => True
  | Some p => p <> ("high" : str) /\ p <> ("medium" : str) /\ p <> ("low" : str)
  end.

Definition with_medium (skill_config : SkillConfig) : SkillConfig :=
  {| promptTriggers := promptTriggers skill_config;
     fileTriggers := fileTriggers skill_config;
     priority := Some ("medium" : str);
     activationMessage := activationMessage skill_config |}.

(** The entry of the skill [skill_name] rewritten to say ["medium"]. *)
Definition relabel (skill_name : str) (item : str * SkillConfig)
  : str * SkillConfig :=
  if str_eqb (fst item) skill_name
  then (fst item, with_medium (snd item))
  else item.

(** The configuration in which the skill [skill_name] says ["medium"]. *)
Definition set_medium (skill_name : str) (skill_rules : SkillRules)
  : SkillRules :=
  {| skills := option_map (map (relabel skill_name)) (skills skill_rules);
     meta := meta skill_rules |}.

(** Some modified file matches some path pattern of the skill. *)
Definition file_skill_matched (re : re_impl) (modified_files : list str)
    (skill_config : SkillConfig) : bool :=
  let file_triggers := get (fileTriggers skill_config) no_file_triggers in
  let path_patterns := get (pathPatterns file_triggers) [] in
  existsb
    (fun file_path =>
       match patterns_loop re path_patterns file_path with
       | Ok true => true
       | _ => false
       end)
    modified_files.

(** The merged set [all_matches] of [main]. *)
Definition all_matches (re : re_impl) (prompt : str)
    (git_status : option (list str)) (skill_rules : SkillRules)
  : result pyset :=
  prompt_matches <- analyze_prompt re prompt skill_rules ;;
  context_matches <- analyze_file_context re git_status skill_rules ;;
  Ok (set_union prompt_matches context_matches).

(** The order a sort by [key] establishes. *)
Definition key_le {A : Type} (key : A -> nat) (x y : A) : Prop :=
  key x <= key y.

(** A skill is configured with priority [p]. *)
Definition priority_is (skills_ : list (str * SkillConfig)) (skill_name p : str)
  : Prop :=
  exists skill_config,
    dict_getitem skills_ skill_name = Ok skill_config
    /\ priority skill_config = Some p.

(** The rank [main] looks up for a name, as a computation that may raise. *)
Definition rank_lookup (skills_ : list (str * SkillConfig)) (skill_name : str)
  : result nat :=
  skill_config <- dict_getitem skills_ skill_name ;;
  Ok (rank_of_config skill_config).

(** ** Sample configurations *)

Definition skill (kws pats globs : list str) (p : option str) : SkillConfig :=
  {| promptTriggers := Some {| keywords := Some kws; intentPatterns := Some pats |};
     fileTriggers := Some {| pathPatterns := Some globs |};
     priority := p;
     activationMessage := None |}.

Definition sample_meta (max_skills : Z) : Meta :=
  {| confidenceThreshold := Some 0.5%float;
     maxSimultaneousSkills := Some max_skills;
     autoActivationEnabled := Some true |}.

(** Three skills: one found by keyword and by path, one with no priority,
    one whose intent pattern and glob do not compile. *)
Definition sample_rules : SkillRules :=
  {| skills :=
       Some [("voip-tests" : str,
              skill ["voip" : str] [] ["**/*.test.*" : str] (Some ("high" : str)));
             ("network" : str,
              skill ["network" : str] ["check .*quality" : str] [] None);
             ("broken" : str,
              skill [] ["(" : str] ["{a,b" : str] (Some ("low" : str)))];
     meta := Some (sample_meta 2) |}.

Definition sample_prompt : str := "Check VoIP quality on the network".

Definition sample_git_status : option (list str) :=
  Some ["src/app.test.ts" : str; "README.md" : str].

(** Two skills of equal priority, both found by the prompt. *)
Definition tie_rules : SkillRules :=
  {| skills :=
       Some [("X" : str, skill ["deploy" : str] [] [] (Some ("medium" : str)));
             ("Y" : str, skill ["deploy" : str] [] [] (Some ("medium" : str)))];
     meta := Some (sample_meta 3) |}.

Definition tie_prompt : str := "deploy the service".

(** Two iteration orders a set may have: as inserted, and reversed. *)
Definition insertion_order (s : pyset) : list str := s.

Definition reverse_order (s : pyset) : list str := rev s.

Definition disabled_rules : SkillRules :=
  {| skills := skills sample_rules;
     meta := Some {| confidenceThreshold := None;
                     maxSimultaneousSkills := None;
                     autoActivationEnabled := Some false |} |}.

(** What the glob ["src"] compiles to. *)
Definition src_regex : Frag.regex :=
  Frag.Cat (Frag.Lit "s") (Frag.Cat (Frag.Lit "r") (Frag.Cat (Frag.Lit "c") Frag.Eps)).

(** What [pre[^/]*post] compiles to, for literal [pre] and [post]. *)
Definition star_between (pre post : str) : Frag.regex :=
  fold_right Frag.Cat Frag.Eps
    (map Frag.Lit pre ++ Frag.Star Frag.NotSlash :: map Frag.Lit post).

(** Membership in a list written out. *)
Ltac in_list := cbn; repeat (first [left; reflexivity | right]).

(** ** The rest of the script

    What [analyze_file_context] does with the output of [git status
    --short], [load_skill_rules], [format_activation_message] and the
    printing of [main].  The fixed texts of the message are written as in
    the source; a string literal stands for its UTF-8 bytes, and the message
    is only ever built by concatenation. *)

(** [str.isspace] on code points below 256 *)
Definition isspace (c : ascii) : bool :=
  let n := nat_of_ascii c in
  ((9 <=? n) && (n <=? 13)) || ((28 <=? n) && (n <=? 32))
  || (n =? 133) || (n =? 160).

(** [s.lstrip()], [s.rstrip()], [s.strip()] *)
Fixpoint lstrip (s : str) : str :=
  match s with
  | [] => []
  | c :: s' => if isspace c then lstrip s' else s
  end.

Definition rstrip (s : str) : str := rev (lstrip (rev s)).

Definition strip (s : str) : str := rstrip (lstrip s).

(** [s.split(sep)] for a separator of one character *)
Fixpoint split_char (sep : ascii) (s : str) : list str :=
  match s with
  | [] => [[]]
  | c :: s' =>
      if Ascii.eqb c sep then [] :: split_char sep s'
      else match split_char sep s' with
           | [] => [[c]]
           | w :: ws => (c :: w) :: ws
           end
  end.

(** The longest prefix without whitespace, and what follows it. *)
Fixpoint span_word (s : str) : str * str :=
  match s with
  | [] => ([], [])
  | c :: s' =>
      if isspace c then ([], s)
      else let (w, r) := span_word s' in (c :: w, r)
  end.

(** [s.split(maxsplit=1)]: the first word, and the rest from its first
    character that is not whitespace on (its end is kept as it is). *)
Definition split_maxsplit1 (s : str) : list str :=
  match lstrip s with
  | [] => []
  | c :: t =>
      let (w, r) := span_word (c :: t) in
      match lstrip r with
      | [] => [w]
      | d :: u => [w; d :: u]
      end
  end.

Definition newline_char : ascii := "010"%char.

Definition nl : str := [newline_char].

(** [for line in ...: if line: parts = line.strip().split(maxsplit=1);
    if len(parts) == 2: modified_files.append(parts[1])] *)
Fixpoint collect_modified (lines : list str) (modified_files : list str)
  : list str :=
  match lines with
  | [] => modified_files
  | line :: rest =>
      match line with
      | [] => collect_modified rest modified_files
      | _ :: _ =>
          let parts := split_maxsplit1 (strip line) in
          if length parts =? 2
          then collect_modified rest (modified_files ++ [nth 1 parts []])
          else collect_modified rest modified_files
      end
  end.

Definition parse_git_status (stdout : str) : list str :=
  collect_modified (split_char newline_char (strip stdout)) [].

(** What [subprocess.run(["git", "status", "--short"], ...)] came to, as
    far as [analyze_file_context] deals with it itself: the run completed,
    or it raised one of the two exceptions that are caught. *)
Inductive git_run : Type :=
| GitCompleted (returncode : Z) (stdout : str)
| GitTimeoutExpired
| GitNotFound.                  (* FileNotFoundError *)

(** The list [modified_files], when the loop over the skills is reached. *)
Definition git_status_of (run : git_run) : option (list str) :=
  match run with
  | GitCompleted returncode stdout =>
      if (returncode =? 0)%Z then Some (parse_git_status stdout) else None
  | GitTimeoutExpired | GitNotFound => None
  end.

(** What opening and reading the rules file came to. *)
Inductive rules_file : Type :=
| RulesLoaded (rules : SkillRules)
| RulesNotFound                 (* FileNotFoundError *)
| RulesNotJson                  (* json.JSONDecodeError *)
| RulesUnreadable.              (* whatever else [open] or the read raises:
                                   IsADirectoryError, PermissionError,
                                   UnicodeDecodeError, ... *)

(** The exceptions that end the script: one of the engine, the one of the
    JSON parser, and what reading the rules file or running git raises
    besides the exceptions that are caught. *)
Inductive script_exn : Type :=
| EngineError (e : exn)
| JSONDecodeError
| RulesError
| SubprocessError.

Inductive outcome (A : Type) : Type :=
| Returned (a : A)
| Uncaught (e : script_exn).

Arguments Returned {A} a.
Arguments Uncaught {A} e.

Definition no_rules : SkillRules :=
  {| skills := Some []; meta := Some no_meta |}.

Definition load_skill_rules (file : rules_file) : outcome SkillRules :=
  match file with
  | RulesLoaded rules => Returned rules
  | RulesNotFound => Returned no_rules
  | RulesNotJson => Uncaught JSONDecodeError
  | RulesUnreadable => Uncaught RulesError
  end.

(** [d.get(key, {})] on the skills dict *)
Definition dict_get (d : list (str * SkillConfig)) (key : str)
  : option SkillConfig :=
  match dict_getitem d key with
  | Ok v => Some v
  | Raise _ => None
  end.

Definition banner : str :=
  "━━━━━━━━━━━━━━━━━━━━━━━━━━━━━━━━━━━━━━━".

Definition header : str :=
  nl ++ banner ++ nl
  ++ "🎯 SKILL ACTIVATION CHECK" ++ nl
  ++ banner ++ nl ++ nl.

Definition footer : str :=
  "💡 Skills provide context-specific best practices and patterns." ++ nl
  ++ banner ++ nl.

(** The activation message of a skill: the configured one, or the default. *)
Definition activation_msg_of (skills_ : list (str * SkillConfig))
    (skill_name : str) : str :=
  let default := "Consider using " ++ skill_name ++ " skill" in
  match dict_get skills_ skill_name with
  | Some skill_config => get (activationMessage skill_config) default
  | None => default
  end.

(** [for skill_name, reason in matched_skills: message += ...] *)
Fixpoint format_entries (matched_skills : list (str * str))
    (skills_ : list (str * SkillConfig)) (message : str) : str :=
  match matched_skills with
  | [] => message
  | (skill_name, reason) :: rest =>
      let activation_msg := activation_msg_of skills_ skill_name in
      let message := message ++ activation_msg ++ nl in
      let message := message ++ "   Reason: " ++ reason ++ nl in
      let message :=
        message ++ "   Location: .claude-library/skills/" ++ skill_name
        ++ "/" ++ nl ++ nl in
      format_entries rest skills_ message
  end.

Definition format_activation_message (matched_skills : list (str * str))
    (skill_rules : SkillRules) : result str :=
  match matched_skills with
  | [] => Ok []
  | _ :: _ =>
      match skills skill_rules with
      | None => Raise KeyError
      | Some skills_ =>
          Ok (format_entries matched_skills skills_ header ++ footer)
      end
  end.

(** What [subprocess.run] came to: one of the outcomes above, or another
    exception ([NotADirectoryError] when [cwd] is a file, [PermissionError],
    ...), which no [except] clause of the script catches. *)
Inductive subprocess_run : Type :=
| Handled (run : git_run)
| SubprocessRaised.

(** The whole script: [argv] is [sys.argv], [file] what reading the rules
    file gives, [git] what running git in a directory gives.  The value is
    the message handed to [print], if any.  [subprocess.run] is called in
    [analyze_file_context], after [analyze_prompt], once [main] is past its
    early returns: an exception of it shows there.  (The warning that a
    missing rules file sends to stderr and the activation log, written
    afterwards with every error swallowed, are not part of the model.) *)
Definition script (re : re_impl) (set_iter : pyset -> list str)
    (argv : list str) (file : rules_file) (git : str -> subprocess_run)
  : outcome (option str) :=
  match argv with
  | [] | [_] => Returned None
  | _ :: prompt :: rest =>
      let cwd := match rest with
                 | cwd :: _ => cwd
                 | [] => ("." : str)
                 end in
      match load_skill_rules file with
      | Uncaught e => Uncaught e
      | Returned skill_rules =>
          match git cwd with
          | Handled run =>
              match main re set_iter prompt (git_status_of run) skill_rules
              with
              | Raise e => Uncaught (EngineError e)
              | Ok [] => Returned None
              | Ok (m :: ms) =>
                  match format_activation_message (m :: ms) skill_rules with
                  | Raise e => Uncaught (EngineError e)
                  | Ok message => Returned (Some message)
                  end
              end
          | SubprocessRaised =>
              if activation_enabled skill_rules
              then match analyze_prompt re prompt skill_rules with
                   | Raise e => Uncaught (EngineError e)
                   | Ok _ => Uncaught SubprocessError
                   end
              else Returned None
          end
      end
  end.

(** The configuration with [maxSimultaneousSkills] set to [m]. *)
Definition with_max (m : Z) (skill_rules : SkillRules) : SkillRules :=
  let meta_ := get (meta skill_rules) no_meta in
  {| skills := skills skill_rules;
     meta := Some {| confidenceThreshold := confidenceThreshold meta_;
                     maxSimultaneousSkills := Some m;
                     autoActivationEnabled := autoActivationEnabled meta_ |} |}.

(** What a run of literal characters compiles to. *)
Definition lits_regex (s : str) : Frag.regex :=
  fold_right Frag.Cat Frag.Eps (map Frag.Lit s).

(** The alternation of the branches of a group, first branch first. *)
Definition close_alts (branches_ : list Frag.regex) : Frag.regex :=
  match branches_ with
  | [] => Frag.Eps
  | first :: others => Frag.alternation first others
  end.

(** What [pre(a1|...|an)post] compiles to, for literal parts. *)
Definition group_between (pre : str) (alts : list str) (post : str)
  : Frag.regex :=
  fold_right Frag.Cat Frag.Eps
    (map Frag.Lit pre
     ++ Frag.Group (close_alts (map lits_regex alts)) :: map Frag.Lit post).

(** One character replaced by another. *)
Definition subst_char (o n c : ascii) : ascii :=
  if Ascii.eqb c o then n else c.

(** The three replacements of braces and commas, character by character. *)
Definition brace_subst (s : str) : str :=
  map (subst_char "," "|")
    (map (subst_char "}" ")") (map (subst_char "{" "(") s)).

(** The tokens of [a1|...|an] for literal alternatives. *)
Fixpoint alt_tokens (alts : list str) : list Frag.token :=
  match alts with
  | [] => []
  | [a] => map Frag.TLit a
  | a :: rest => map Frag.TLit a ++ Frag.TBar :: alt_tokens rest
  end.

(** ** Lines of [git status --short], to parse back

    A line is written as blanks, a status code, blanks and the path, as git
    does ([" M src/a.py"], ["?? notes.txt"], ["R  old -> new"]). *)

Record status_entry : Type := {
  lead : str;
  code : str;
  gap : str;
  path : str
}.

Definition status_line (e : status_entry) : str :=
  lead e ++ code e ++ gap e ++ path e.

(** Whitespace that does not end a line. *)
Definition blank (c : ascii) : bool :=
  isspace c && negb (Ascii.eqb c newline_char).

Definition nonspace (c : ascii) : bool := negb (isspace c).

(** Not empty, no whitespace at either end, no newline inside. *)
Definition trimmed (s : str) : bool :=
  match s, rev s with
  | c :: _, d :: _ =>
      nonspace c && nonspace d && negb (existsb (Ascii.eqb newline_char) s)
  | _, _ => false
  end.

Definition valid_entry (e : status_entry) : bool :=
  forallb blank (lead e)
  && match code e with
     | [] => false
     | _ :: _ => forallb nonspace (code e)
     end
  && match gap e with
     | [] => false
     | _ :: _ => forallb blank (gap e)
     end
  && trimmed (path e).

(** The output: every line followed by a newline. *)
Definition unlines (lines : list str) : str :=
  flat_map (fun line => line ++ nl) lines.

Definition sample_entries : list status_entry :=
  [ {| lead := " "; code := "M"; gap := " "; path := "src/app.test.ts" |};
    {| lead := ""; code := "??"; gap := " "; path := "notes one.txt" |};
    {| lead := ""; code := "R"; gap := "  "; path := "old.py -> new.py" |} ].

(** The entry as it stands once the blanks before its code are gone. *)
Definition without_lead (e : status_entry) : status_entry :=
  {| lead := []; code := code e; gap := gap e; path := path e |}.

(** The lines the message gives to one matched skill. *)
Definition entry_block (skills_ : list (str * SkillConfig))
    (entry : str * str) : str :=
  activation_msg_of skills_ (fst entry) ++ nl
  ++ "   Reason: " ++ snd entry ++ nl
  ++ "   Location: .claude-library/skills/" ++ fst entry ++ "/" ++ nl ++ nl.

(** A run of git that shows a tree with the sample entries. *)
Definition sample_git (cwd : str) : git_run :=
  GitCompleted 0 (unlines (map status_line sample_entries)).

Definition sample_subprocess (cwd : str) : subprocess_run :=
  Handled (sample_git cwd).


Definition sample_argv : list str :=
  ["skill_activator.py" : str; sample_prompt].

(** git failed, or printed nothing but whitespace. *)
Definition git_gives_nothing (run : git_run) : bool :=
  match run with
  | GitCompleted returncode stdout =>
      negb (returncode =? 0)%Z || forallb isspace stdout
  | GitTimeoutExpired | GitNotFound => true
  end.

(** ** A repeat count that is too large

    CPython's parser reads [{lo}] after an item as a repeat count and
    raises [OverflowError], not [re.error], when [lo] reaches [MAXREPEAT];
    the check comes before the one that there is something to repeat. *)

Definition MAXREPEAT : N := 4294967295.

Definition is_digit (c : ascii) : bool :=
  (48 <=? nat_of_ascii c) && (nat_of_ascii c <=? 57).

(** [int(lo)] for a run of digits, on top of [acc]. *)
Fixpoint int_of_digits (lo : str) (acc : N) : N :=
  match lo with
  | [] => acc
  | d :: rest =>
      int_of_digits rest (10 * acc + N.of_nat (nat_of_ascii d - 48))%N
  end.

(** The digits [s] starts with, and what follows them. *)
Fixpoint span_digits (s : str) : str * str :=
  match s with
  | [] => ([], [])
  | c :: rest =>
      if is_digit c
      then let (lo, after) := span_digits rest in (c :: lo, after)
      else ([], s)
  end.

(** Plain characters, then [{lo}] with [lo] too large: the parser gets to
    the brace without an error and raises there. *)
Fixpoint repeat_overflows (pattern : str) : bool :=
  match pattern with
  | [] => false
  | c :: rest =>
      if Ascii.eqb c "{"
      then match span_digits rest with
           | (_ :: _ as lo, close :: _) =>
               Ascii.eqb close "}" && (MAXREPEAT <=? int_of_digits lo 0)%N
           | _ => false
           end
      else plain_char c && repeat_overflows rest
  end.

(** CPython's [re] as far as this development describes it: the repeat
    count that is too large, and the fragment; outside both the answer is
    the placeholder of [Frag.re]. *)
Definition cpython_re : re_impl :=
  {| call_search_ignorecase pattern s :=
       if repeat_overflows pattern
       then Fails OverflowError
       else Answers (re_search_ignorecase Frag.re pattern s);
     call_match pattern s :=
       if repeat_overflows pattern
       then Fails OverflowError
       else Answers (re_match Frag.re pattern s) |}.

(** A skill whose intent pattern has such a count, and a sibling with a
    keyword. *)
Definition overflow_rules : SkillRules :=
  {| skills :=
       Some [("broken" : str,
              skill [] ["a{99999999999}" : str] [] (Some ("high" : str)));
             ("sibling" : str,
              skill ["deploy" : str] [] [] (Some ("medium" : str)))];
     meta := Some (sample_meta 3) |}.

(** The same with an intent pattern on which [re] raises [re.error]. *)
Definition unbalanced_rules : SkillRules :=
  {| skills :=
       Some [("broken" : str, skill [] ["(" : str] [] (Some ("high" : str)));
             ("sibling" : str,
              skill ["deploy" : str] [] [] (Some ("medium" : str)))];
     meta := Some (sample_meta 3) |}.

(** Three skills of the three priorities, lowest first, all found by the
    prompt. *)
Definition ranked_rules : SkillRules :=
  {| skills :=
       Some [("L" : str, skill ["deploy" : str] [] [] (Some ("low" : str)));
             ("M" : str, skill ["deploy" : str] [] [] (Some ("medium" : str)));
             ("H" : str, skill ["deploy" : str] [] [] (Some ("high" : str)))];
     meta := Some (sample_meta 3) |}.

(** * Properties *)

(** ** Strings *)

Lemma startswith_app (p s : str) : startswith p (p ++ s) = true.
Proof.
  induction p as [|a p IH]; simpl; [reflexivity|].
  now rewrite Ascii.eqb_refl, IH.
Qed.

Lemma startswith_inv (p s : str) :
  startswith p s = true -> exists t, s = p ++ t.
Proof.
  revert s; induction p as [|a p IH]; intros s H.
  - now exists s.
  - destruct s as [|b s]; simpl in H; [discriminate|].
    apply andb_true_iff in H as [Hab Hp].
    apply Ascii.eqb_eq in Hab; subst b.
    destruct (IH _ Hp) as [t ->]. now exists t.
Qed.

Lemma contains_here (needle hay : str) :
  startswith needle hay = true -> contains needle hay = true.
Proof. intros H. destruct hay; simpl; now rewrite H. Qed.

Lemma contains_later (needle : str) (c : ascii) (hay : str) :
  contains needle hay = true -> contains needle (c :: hay) = true.
Proof. intros H. cbn [contains]. rewrite H. apply orb_true_r. Qed.

(** [needle in hay] holds exactly when [needle] occurs somewhere in [hay]. *)
Lemma contains_spec (needle hay : str) :
  contains needle hay = true <-> exists a b, hay = a ++ needle ++ b.
Proof.
  split.
  - induction hay as [|c hay IH]; simpl; intros H.
    + apply orb_true_iff in H as [H|H]; [|discriminate].
      apply startswith_inv in H as [t Ht]. now exists [], t.
    + apply orb_true_iff in H as [H|H].
      * apply startswith_inv in H as [t Ht]. now exists [], t.
      * destruct (IH H) as (a & b & ->). now exists (c :: a), b.
  - intros (a & b & ->). induction a as [|c a IH].
    + cbn [app]. apply contains_here, startswith_app.
    + cbn [app]. apply contains_later, IH.
Qed.

(** ** Sets *)

Lemma set_add_In (x y : str) (s : pyset) :
  In y (set_add x s) <-> y = x \/ In y s.
Proof.
  unfold set_add. destruct (in_dec str_eq_dec x s) as [Hin|Hnin].
  - split; [now right | intros [->|H]; assumption].
  - rewrite in_app_iff; simpl. intuition.
Qed.

Lemma set_add_NoDup (x : str) (s : pyset) : NoDup s -> NoDup (set_add x s).
Proof.
  intros H. unfold set_add. destruct (in_dec str_eq_dec x s) as [Hin|Hnin].
  - assumption.
  - apply NoDup_app; [assumption | repeat constructor; intros [] | ].
    intros y Hy [<-|[]]. contradiction.
Qed.

Lemma set_union_In (a b : pyset) (y : str) :
  In y (set_union a b) <-> In y a \/ In y b.
Proof.
  unfold set_union. revert a; induction b as [|x b IH]; intros a; simpl.
  - intuition.
  - rewrite IH, set_add_In. intuition.
Qed.

Lemma set_union_NoDup (a b : pyset) : NoDup a -> NoDup (set_union a b).
Proof.
  unfold set_union. revert a; induction b as [|x b IH]; intros a H; simpl.
  - assumption.
  - apply IH, set_add_NoDup, H.
Qed.

Lemma set_mem_In (x : str) (s : pyset) : set_mem x s = true <-> In x s.
Proof.
  unfold set_mem. destruct (in_dec str_eq_dec x s); intuition discriminate.
Qed.

Lemma str_eqb_eq (a b : str) : str_eqb a b = true <-> a = b.
Proof.
  unfold str_eqb. destruct (str_eq_dec a b); intuition discriminate.
Qed.

Lemma str_eqb_refl (a : str) : str_eqb a a = true.
Proof. now apply str_eqb_eq. Qed.

(** ** The prompt scorer *)

Section PromptScorer.

Variable re : re_module.

Lemma score_keywords_count (kws : list str) (prompt_lower : str) (score : nat) :
  score_keywords kws prompt_lower score
  = score + length (filter (fun k => contains (lower k) prompt_lower) kws).
Proof.
  revert score; induction kws as [|k kws IH]; intros score; simpl.
  - lia.
  - destruct (contains (lower k) prompt_lower); rewrite IH; simpl; lia.
Qed.

Lemma score_patterns_count (pats : list str) (prompt : str) (score : nat) :
  score_patterns re pats prompt score
  = Ok (score + 2 * length (filter (pattern_found re prompt) pats)).
Proof.
  revert score; induction pats as [|p pats IH]; intros score.
  - cbn [score_patterns filter length]. f_equal; lia.
  - cbn [score_patterns filter documented call_search_ignorecase call_result].
    unfold pattern_found at 1.
    destruct (re_search_ignorecase re p prompt); cbn [outcome_result];
      rewrite IH; f_equal; cbn [length]; lia.
Qed.

Lemma true_div_ok (a b : nat) :
  0 < b ->
  true_div a b = Ok (PrimFloat.div (float_of_nat a) (float_of_nat b)).
Proof.
  intros Hb. unfold true_div.
  destruct (Nat.eqb_spec b 0); [lia | reflexivity].
Qed.

(** The guard [max_score > 0 and ...] keeps the division from raising. *)
Lemma threshold_met_ok (score max_score : nat) (threshold : float) :
  threshold_met score max_score threshold
  = Ok ((0 <? max_score)
        && PrimFloat.leb threshold
             (PrimFloat.div (float_of_nat score) (float_of_nat max_score))).
Proof.
  unfold threshold_met. destruct (Nat.ltb_spec 0 max_score) as [H|H].
  - now rewrite (true_div_ok _ H).
  - reflexivity.
Qed.

Lemma prompt_skill_matched_ok (prompt : str) (skill_config : SkillConfig)
    (meta_ : Meta) :
  let triggers := get (promptTriggers skill_config) no_prompt_triggers in
  let kws := get (keywords triggers) [] in
  let pats := get (intentPatterns triggers) [] in
  prompt_skill_matched re prompt skill_config meta_
  = Ok ((0 <? spec_max_score kws pats)
        && PrimFloat.leb
             (get (confidenceThreshold meta_) default_threshold)
             (PrimFloat.div
                (float_of_nat (spec_score re prompt kws pats))
                (float_of_nat (spec_max_score kws pats)))).
Proof.
  intros triggers kws pats. unfold prompt_skill_matched.
  fold triggers. fold kws. fold pats.
  rewrite score_patterns_count, score_keywords_count. cbn [bind].
  rewrite threshold_met_ok. unfold spec_score, spec_max_score, keyword_occurs.
  now replace (length kws + length pats * 2) with (length kws + 2 * length pats)
    by lia.
Qed.

Lemma prompt_skill_matched_total (prompt : str) (skill_config : SkillConfig)
    (meta_ : Meta) :
  exists b, prompt_skill_matched re prompt skill_config meta_ = Ok b.
Proof. eexists. apply prompt_skill_matched_ok. Qed.

(** The loop over the skills adds exactly the names whose body said yes. *)
Lemma analyze_prompt_loop_spec (prompt : str) (items : list (str * SkillConfig))
    (meta_ : Meta) (acc : pyset) :
  exists matches,
    analyze_prompt_loop re prompt items meta_ acc = Ok matches
    /\ (NoDup acc -> NoDup matches)
    /\ forall name,
         In name matches <->
         In name acc
         \/ exists sc, In (name, sc) items
                       /\ prompt_skill_matched re prompt sc meta_ = Ok true.
Proof.
  revert acc; induction items as [|[n sc] items IH]; intros acc; simpl.
  - exists acc. split; [reflexivity|]. split; [auto|].
    intros name. split; [now left | intros [H|(? & [] & _)]; exact H].
  - destruct (prompt_skill_matched_total prompt sc meta_) as [b Hb].
    rewrite Hb. cbn [bind].
    destruct (IH (if b then set_add n acc else acc)) as (m & Hm & Hnd & Hin).
    exists m. split; [exact Hm|]. split.
    + intros Hacc. apply Hnd. destruct b; [now apply set_add_NoDup | exact Hacc].
    + intros name. rewrite Hin. split.
      * intros [H|(sc' & Hsc' & Hok)].
        -- destruct b.
           ++ apply set_add_In in H as [->|H]; [|now left].
              right. exists sc. split; [now left | exact Hb].
           ++ now left.
        -- right. exists sc'. split; [now right | exact Hok].
      * intros [H|(sc' & [Heq|Hsc'] & Hok)].
        -- left. destruct b; [apply set_add_In; now right | exact H].
        -- injection Heq as <- <-. left. rewrite Hok in Hb.
           injection Hb as <-. apply set_add_In. now left.
        -- right. exists sc'. split; assumption.
Qed.

Lemma analyze_prompt_spec (prompt : str) (skill_rules : SkillRules) :
  exists matches,
    analyze_prompt re prompt skill_rules = Ok matches
    /\ NoDup matches
    /\ forall name,
         In name matches <->
         exists sc, In (name, sc) (get (skills skill_rules) [])
                    /\ prompt_skill_matched re prompt sc
                         (get (meta skill_rules) no_meta) = Ok true.
Proof.
  unfold analyze_prompt.
  destruct (analyze_prompt_loop_spec prompt (get (skills skill_rules) [])
              (get (meta skill_rules) no_meta) []) as (m & Hm & Hnd & Hin).
  exists m. split; [exact Hm|]. split; [apply Hnd; constructor|].
  intros name. rewrite Hin. split; [intros [[]|H]; exact H | now right].
Qed.

End PromptScorer.

(** C1.  The prompt score is one point per keyword that occurs in the prompt
    (case-insensitively: lowered keyword inside lowered prompt) plus two
    points per intent pattern whose case-insensitive search succeeds;
    [max_score] is [count(keywords) + 2 * count(intentPatterns)]; the skill
    matches through its prompt triggers exactly when [max_score > 0] and
    [score / max_score >= confidenceThreshold] (binary64 division and
    comparison), so that a skill with no prompt trigger never matches; and the
    set [analyze_prompt] returns holds exactly the skills for which this
    holds. *)
Theorem prompt_score_and_threshold (re : re_module) (prompt : str)
    (skill_config : SkillConfig) (skill_rules : SkillRules) :
  let triggers := get (promptTriggers skill_config) no_prompt_triggers in
  let kws := get (keywords triggers) [] in
  let pats := get (intentPatterns triggers) [] in
  let meta_ := get (meta skill_rules) no_meta in
  let threshold := get (confidenceThreshold meta_) default_threshold in
  let score := spec_score re prompt kws pats in
  let max_score := spec_max_score kws pats in
  score_patterns re pats prompt (score_keywords kws (lower prompt) 0) = Ok score
  /\ length kws + length pats * 2 = max_score
  /\ prompt_skill_matched re prompt skill_config meta_
     = Ok ((0 <? max_score)
           && PrimFloat.leb threshold
                (PrimFloat.div (float_of_nat score) (float_of_nat max_score)))
  /\ (max_score = 0
      -> prompt_skill_matched re prompt skill_config meta_ = Ok false)
  /\ exists matches,
       analyze_prompt re prompt skill_rules = Ok matches
       /\ forall name,
            In name matches <->
            exists sc, In (name, sc) (get (skills skill_rules) [])
                       /\ prompt_skill_matched re prompt sc meta_ = Ok true.
Proof.
  intros triggers kws pats meta_ threshold score max_score.
  split; [|split; [|split; [|split]]].
  - rewrite score_patterns_count, score_keywords_count.
    unfold score, spec_score, keyword_occurs. f_equal.
  - unfold max_score, spec_max_score. lia.
  - apply prompt_skill_matched_ok.
  - intros H0. rewrite prompt_skill_matched_ok.
    fold triggers. fold kws. fold pats. fold max_score. now rewrite H0.
  - destruct (analyze_prompt_spec re prompt skill_rules) as (m & Hm & _ & Hin).
    exists m. split; [exact Hm | exact Hin].
Qed.

(** ** Lists: order, stable sorting, slicing *)

Lemma firstn_In (A : Type) (n : nat) (l : list A) (z : A) :
  In z (firstn n l) -> In z l.
Proof.
  intros H. rewrite <- (firstn_skipn n l). apply in_or_app. now left.
Qed.

Section Sorting.

Variable A : Type.
Variable key : A -> nat.


Lemma insert_by_perm (x : A) (l : list A) :
  Permutation (insert_by key x l) (x :: l).
Proof.
  induction l as [|y l IH]; simpl; [reflexivity|].
  destruct (key x <=? key y); [reflexivity|].
  rewrite IH. apply perm_swap.
Qed.

Lemma sort_by_perm (l : list A) : Permutation (sort_by key l) l.
Proof.
  induction l as [|x l IH]; simpl; [reflexivity|].
  rewrite insert_by_perm. now constructor.
Qed.

Lemma insert_by_sorted (x : A) (l : list A) :
  StronglySorted (key_le key) l -> StronglySorted (key_le key) (insert_by key x l).
Proof.
  induction 1 as [|y l Hs IH Hy]; simpl.
  - repeat constructor.
  - destruct (Nat.leb_spec (key x) (key y)) as [Hle|Hgt].
    + constructor; [now constructor|].
      constructor; [exact Hle|].
      eapply Forall_impl; [|exact Hy]. unfold key_le. intros; lia.
    + constructor; [exact IH|].
      eapply Permutation_Forall; [symmetry; apply insert_by_perm|].
      constructor; [unfold key_le; lia | exact Hy].
Qed.

Lemma sort_by_sorted (l : list A) : StronglySorted (key_le key) (sort_by key l).
Proof.
  induction l as [|x l IH]; simpl; [constructor | now apply insert_by_sorted].
Qed.

Lemma precedes_cons (a x y : A) (l : list A) :
  precedes l x y -> precedes (a :: l) x y.
Proof. intros (l1 & l2 & l3 & ->). now exists (a :: l1), l2, l3. Qed.

Lemma precedes_head (x y : A) (l : list A) : In y l -> precedes (x :: l) x y.
Proof.
  intros H. apply in_split in H as (l2 & l3 & ->). now exists [], l2, l3.
Qed.

Lemma precedes_cons_inv (a x y : A) (l : list A) :
  precedes (a :: l) x y -> (a = x /\ In y l) \/ precedes l x y.
Proof.
  intros (l1 & l2 & l3 & E). destruct l1 as [|b l1]; cbn [app] in E.
  - injection E as -> ->. left. split; [reflexivity|].
    apply in_or_app. right. now left.
  - injection E as -> ->. right. now exists l1, l2, l3.
Qed.

Lemma precedes_In (x y : A) (l : list A) : precedes l x y -> In x l /\ In y l.
Proof.
  intros (l1 & l2 & l3 & ->). split.
  - apply in_or_app. right. now left.
  - apply in_or_app. right. right. apply in_or_app. right. now left.
Qed.

Lemma insert_by_precedes_old (a x y : A) (l : list A) :
  precedes l x y -> precedes (insert_by key a l) x y.
Proof.
  induction l as [|z l IH]; intros H; simpl.
  - destruct H as (l1 & l2 & l3 & E). now destruct l1.
  - destruct (key a <=? key z); [now apply precedes_cons|].
    apply precedes_cons_inv in H as [[-> Hy]|H].
    + apply precedes_head.
      eapply Permutation_in; [symmetry; apply insert_by_perm|]. now right.
    + apply precedes_cons, IH, H.
Qed.

Lemma insert_by_precedes_new (a y : A) (l : list A) :
  In y l -> key a <= key y -> precedes (insert_by key a l) a y.
Proof.
  induction l as [|z l IH]; intros Hy Hle; simpl; [destruct Hy|].
  destruct (Nat.leb_spec (key a) (key z)) as [Hz|Hz].
  - now apply precedes_head.
  - destruct Hy as [->|Hy]; [lia|]. apply precedes_cons, IH; assumption.
Qed.

(** The sort is stable: it never moves an element past one that came before
    it and whose key is not larger. *)
Lemma sort_by_stable (x y : A) (l : list A) :
  precedes l x y -> key x <= key y -> precedes (sort_by key l) x y.
Proof.
  induction l as [|a l IH]; intros H Hle; simpl.
  - destruct H as (l1 & l2 & l3 & E). now destruct l1.
  - apply precedes_cons_inv in H as [[-> Hy]|H].
    + apply insert_by_precedes_new; [|exact Hle].
      eapply Permutation_in; [symmetry; apply sort_by_perm | exact Hy].
    + apply insert_by_precedes_old, IH; assumption.
Qed.

Lemma sorted_precedes (x y : A) (l : list A) :
  StronglySorted (key_le key) l -> precedes l x y -> key x <= key y.
Proof.
  intros Hs (l1 & l2 & l3 & ->).
  induction l1 as [|a l1 IH]; cbn [app] in Hs.
  - apply StronglySorted_inv in Hs as [_ Hall].
    rewrite Forall_forall in Hall. apply Hall.
    apply in_or_app. right. now left.
  - apply StronglySorted_inv in Hs as [Hs _]. now apply IH.
Qed.

Lemma precedes_or (x y : A) (l : list A) :
  In x l -> In y l -> x <> y -> precedes l x y \/ precedes l y x.
Proof.
  induction l as [|a l IH]; intros Hx Hy Hne; [destruct Hx|].
  destruct Hx as [->|Hx], Hy as [->|Hy].
  - contradiction.
  - left. now apply precedes_head.
  - right. now apply precedes_head.
  - destruct (IH Hx Hy Hne); [left | right]; now apply precedes_cons.
Qed.

Lemma precedes_firstn (n : nat) (x y : A) (l : list A) :
  NoDup l -> precedes l x y -> In y (firstn n l) -> precedes (firstn n l) x y.
Proof.
  intros Hnd (l1 & l2 & l3 & ->) Hy.
  replace (l1 ++ x :: l2 ++ y :: l3) with ((l1 ++ x :: l2) ++ y :: l3) in *
    by (rewrite <- app_assoc; reflexivity).
  set (a := l1 ++ x :: l2) in *.
  apply NoDup_remove_2 in Hnd.
  rewrite firstn_app in Hy |- *.
  apply in_app_or in Hy as [Hy|Hy].
  - exfalso. apply Hnd, in_or_app. left.
    eapply firstn_In; eassumption.
  - destruct (n - length a) as [|k] eqn:Ek; [destruct Hy|].
    rewrite firstn_all2 by lia. cbn [firstn]. unfold a.
    exists l1, l2, (firstn k l3). now rewrite <- app_assoc.
Qed.

Lemma sorted_firstn (n : nat) (l : list A) :
  StronglySorted (key_le key) l -> StronglySorted (key_le key) (firstn n l).
Proof.
  intros Hs. revert n; induction Hs as [|a l Hs IH Ha]; intros [|n];
    cbn [firstn]; try constructor.
  - apply IH.
  - rewrite Forall_forall in *. intros z Hz. apply Ha.
    eapply firstn_In; eassumption.
Qed.

End Sorting.

Lemma sort_by_map (A B : Type) (f : A -> B) (key : B -> nat) (l : list A) :
  sort_by key (map f l) = map f (sort_by (fun a => key (f a)) l).
Proof.
  induction l as [|x l IH]; simpl; [reflexivity|]. rewrite IH.
  generalize (sort_by (fun a => key (f a)) l) as s.
  induction s as [|y s IHs]; simpl; [reflexivity|].
  destruct (key (f x) <=? key (f y)); simpl; [reflexivity | now rewrite IHs].
Qed.

Lemma slice_to_map (A B : Type) (f : A -> B) (n : Z) (l : list A) :
  slice_to n (map f l) = map f (slice_to n l).
Proof.
  unfold slice_to. rewrite length_map.
  destruct (0 <=? n)%Z; now rewrite firstn_map.
Qed.

Lemma slice_to_firstn (A : Type) (n : Z) (l : list A) :
  exists k, slice_to n l = firstn k l.
Proof. unfold slice_to. destruct (0 <=? n)%Z; eauto. Qed.

Lemma slice_to_length (A : Type) (n : Z) (l : list A) :
  (0 <= n)%Z -> (Z.of_nat (length (slice_to n l)) <= n)%Z.
Proof.
  intros Hn. unfold slice_to.
  destruct (Z.leb_spec 0 n) as [_|H]; [|lia].
  rewrite length_firstn. lia.
Qed.

(** ** The file-context scorer *)

Section FileContext.

Variable re : re_module.

Lemma path_pattern_test_cases (pattern file_path : str) :
  path_pattern_test re pattern file_path = Ok true
  \/ path_pattern_test re pattern file_path = Ok false
  \/ path_pattern_test re pattern file_path = Raise re_error.
Proof.
  unfold path_pattern_test. cbn [documented call_match call_result].
  destruct (re_match re (glob_to_regex pattern) file_path); simpl; auto.
Qed.

Lemma patterns_loop_total (path_patterns : list str) (file_path : str) :
  exists b, patterns_loop re path_patterns file_path = Ok b.
Proof.
  induction path_patterns as [|p ps IH]; simpl; [now exists false|].
  destruct (path_pattern_test_cases p file_path) as [H|[H|H]]; rewrite H;
    [now exists true | exact IH | exact IH].
Qed.

Lemma set_add_idem (x : str) (s : pyset) : set_add x (set_add x s) = set_add x s.
Proof.
  unfold set_add at 1.
  destruct (in_dec str_eq_dec x (set_add x s)) as [_|H]; [reflexivity|].
  exfalso. apply H, set_add_In. now left.
Qed.

Lemma files_loop_spec (modified_files path_patterns : list str)
    (skill_name : str) (acc : pyset) :
  files_loop re modified_files path_patterns skill_name acc
  = Ok (if existsb
             (fun file_path =>
                match patterns_loop re path_patterns file_path with
                | Ok true => true
                | _ => false
                end)
             modified_files
        then set_add skill_name acc
        else acc).
Proof.
  revert acc; induction modified_files as [|f fs IH]; intros acc; simpl.
  - reflexivity.
  - destruct (patterns_loop_total path_patterns f) as [b ->]. cbn [bind].
    rewrite IH. destruct b; simpl; [|reflexivity].
    rewrite set_add_idem. now destruct (existsb _ fs).
Qed.

Lemma analyze_file_context_loop_spec (modified_files : list str)
    (items : list (str * SkillConfig)) (acc : pyset) :
  exists matches,
    analyze_file_context_loop re modified_files items acc = Ok matches
    /\ (NoDup acc -> NoDup matches)
    /\ forall name,
         In name matches <->
         In name acc
         \/ exists sc, In (name, sc) items
                       /\ file_skill_matched re modified_files sc = true.
Proof.
  revert acc; induction items as [|[n sc] items IH]; intros acc; simpl.
  - exists acc. split; [reflexivity|]. split; [auto|].
    intros name. split; [now left | intros [H|(? & [] & _)]; exact H].
  - rewrite files_loop_spec. cbn [bind].
    fold (file_skill_matched re modified_files sc).
    destruct (file_skill_matched re modified_files sc) eqn:Hb.
    + destruct (IH (set_add n acc)) as (m & Hm & Hnd & Hin).
      exists m. split; [exact Hm|]. split.
      * intros Hacc. now apply Hnd, set_add_NoDup.
      * intros name. rewrite Hin, set_add_In. split.
        -- intros [[->|H]|(sc' & Hsc' & Hok)].
           ++ right. exists sc. split; [now left | exact Hb].
           ++ now left.
           ++ right. exists sc'. split; [now right | exact Hok].
        -- intros [H|(sc' & [Heq|Hsc'] & Hok)].
           ++ left. now right.
           ++ injection Heq as <- <-. left. now left.
           ++ right. exists sc'. split; assumption.
    + destruct (IH acc) as (m & Hm & Hnd & Hin).
      exists m. split; [exact Hm|]. split; [exact Hnd|].
      intros name. rewrite Hin. split.
      * intros [H|(sc' & Hsc' & Hok)]; [now left|].
        right. exists sc'. split; [now right | exact Hok].
      * intros [H|(sc' & [Heq|Hsc'] & Hok)]; [now left | |].
        -- injection Heq as <- <-. congruence.
        -- right. exists sc'. split; assumption.
Qed.

Lemma analyze_file_context_spec (git_status : option (list str))
    (skill_rules : SkillRules) :
  exists matches,
    analyze_file_context re git_status skill_rules = Ok matches
    /\ NoDup matches
    /\ forall name,
         In name matches <->
         exists modified_files sc,
           git_status = Some modified_files
           /\ In (name, sc) (get (skills skill_rules) [])
           /\ file_skill_matched re modified_files sc = true.
Proof.
  destruct git_status as [files|]; simpl.
  - destruct (analyze_file_context_loop_spec files
                (get (skills skill_rules) []) []) as (m & Hm & Hnd & Hin).
    exists m. split; [exact Hm|]. split; [apply Hnd; constructor|].
    intros name. rewrite Hin. split.
    + intros [[]|(sc & H1 & H2)]. now exists files, sc.
    + intros (files' & sc & Heq & H1 & H2). injection Heq as <-.
      right. now exists sc.
  - exists []. split; [reflexivity|]. split; [constructor|].
    intros name. split; [intros [] | intros (? & ? & H & _); discriminate].
Qed.

End FileContext.

(** ** The activation engine *)

Section Engine.

Variable re : re_module.
Variable set_iter : pyset -> list str.

(** The merged set: both analyses return, the union has no duplicate, and
    every name in it is a key of the skills dict. *)
Lemma all_matches_spec (prompt : str) (git_status : option (list str))
    (skill_rules : SkillRules) :
  exists pm cm,
    analyze_prompt re prompt skill_rules = Ok pm
    /\ analyze_file_context re git_status skill_rules = Ok cm
    /\ all_matches re prompt git_status skill_rules = Ok (set_union pm cm)
    /\ NoDup (set_union pm cm)
    /\ forall name, In name (set_union pm cm) ->
                    exists sc, In (name, sc) (get (skills skill_rules) []).
Proof.
  destruct (analyze_prompt_spec re prompt skill_rules) as (pm & Hpm & Hnd & Hp).
  destruct (analyze_file_context_spec re git_status skill_rules)
    as (cm & Hcm & _ & Hc).
  exists pm, cm. unfold all_matches. rewrite Hpm, Hcm. cbn [bind].
  repeat split; [now apply set_union_NoDup|].
  intros name H. apply set_union_In in H as [H|H].
  - apply Hp in H as (sc & H & _). now exists sc.
  - apply Hc in H as (? & sc & _ & H & _). now exists sc.
Qed.

Lemma dict_getitem_In (d : list (str * SkillConfig)) (name : str)
    (sc : SkillConfig) :
  In (name, sc) d -> exists sc', dict_getitem d name = Ok sc'.
Proof.
  induction d as [|[k v] d IH]; intros H; [destruct H|]. simpl.
  destruct (str_eqb k name) eqn:E; [now exists v|].
  destruct H as [H|H]; [|now apply IH].
  injection H as -> ->. now rewrite str_eqb_refl in E.
Qed.

Lemma prioritize_ok (skills_ : list (str * SkillConfig)) (names : list str) :
  (forall name, In name names -> exists sc, In (name, sc) skills_) ->
  prioritize names skills_
  = Ok (map (fun name => (name, rank_of skills_ name)) names).
Proof.
  induction names as [|n names IH]; intros H; simpl; [reflexivity|].
  destruct (H n (or_introl eq_refl)) as [sc Hsc].
  destruct (dict_getitem_In _ _ _ Hsc) as [sc' Hget].
  unfold rank_of at 1. rewrite Hget. cbn [bind].
  rewrite IH by (intros; apply H; now right). reflexivity.
Qed.

Lemma main_disabled (prompt : str) (git_status : option (list str))
    (skill_rules : SkillRules) :
  activation_enabled skill_rules = false ->
  main re set_iter prompt git_status skill_rules = Ok [].
Proof.
  unfold activation_enabled, main.
  destruct (skills skill_rules) as [[|item items]|]; try reflexivity.
  now intros ->.
Qed.

(** Past the early returns [main] yields the names of the merged set, in
    iteration order, stably sorted by rank and cut to [max_skills]. *)
Lemma main_enabled (prompt : str) (git_status : option (list str))
    (skill_rules : SkillRules) :
  iterates set_iter ->
  activation_enabled skill_rules = true ->
  exists pm cm,
    analyze_prompt re prompt skill_rules = Ok pm
    /\ analyze_file_context re git_status skill_rules = Ok cm
    /\ main re set_iter prompt git_status skill_rules
       = Ok (map (fun name => (name, reason_of name pm cm))
               (slice_to (max_skills_of skill_rules)
                  (sort_by (rank_of (get (skills skill_rules) []))
                     (set_iter (set_union pm cm))))).
Proof.
  intros Hiter Hen.
  destruct (all_matches_spec prompt git_status skill_rules)
    as (pm & cm & Hpm & Hcm & _ & _ & Hkeys).
  exists pm, cm. split; [exact Hpm|]. split; [exact Hcm|].
  unfold activation_enabled in Hen. unfold main, max_skills_of.
  destruct (skills skill_rules) as [[|item items]|] eqn:Hs; try discriminate.
  rewrite Hen. cbn [negb]. rewrite Hpm, Hcm. cbn [bind get] in *.
  rewrite prioritize_ok.
  - cbn [bind]. f_equal.
    rewrite (sort_by_map (fun name => (name, rank_of (item :: items) name)) snd).
    rewrite slice_to_map, map_map. reflexivity.
  - intros name H. apply Hkeys. eapply Permutation_in; [apply Hiter | exact H].
Qed.

(** With an [re] that stays within the documented interface, [main]
    returns on every input. *)
Lemma main_total (prompt : str) (git_status : option (list str))
    (skill_rules : SkillRules) :
  iterates set_iter ->
  exists res, main re set_iter prompt git_status skill_rules = Ok res.
Proof.
  intros Hiter. destruct (activation_enabled skill_rules) eqn:Hen.
  - destruct (main_enabled prompt git_status skill_rules Hiter Hen)
      as (pm & cm & _ & _ & H). eauto.
  - eexists. now apply main_disabled.
Qed.

(** The names of the result, whichever branch [main] took. *)
Lemma main_names (prompt : str) (git_status : option (list str))
    (skill_rules : SkillRules) :
  iterates set_iter ->
  exists am res k,
    all_matches re prompt git_status skill_rules = Ok am
    /\ NoDup am
    /\ main re set_iter prompt git_status skill_rules = Ok res
    /\ (map fst res
        = firstn k (sort_by (rank_of (get (skills skill_rules) []))
                      (set_iter am))
        \/ res = []).
Proof.
  intros Hiter.
  destruct (all_matches_spec prompt git_status skill_rules)
    as (pm & cm & Hpm & Hcm & Ham & Hnd & _).
  exists (set_union pm cm).
  destruct (activation_enabled skill_rules) eqn:Hen.
  - destruct (main_enabled prompt git_status skill_rules Hiter Hen)
      as (pm' & cm' & Hpm' & Hcm' & H).
    rewrite Hpm in Hpm'. rewrite Hcm in Hcm'.
    injection Hpm' as <-. injection Hcm' as <-.
    destruct (slice_to_firstn (max_skills_of skill_rules)
                (sort_by (rank_of (get (skills skill_rules) []))
                   (set_iter (set_union pm cm)))) as [k Hk].
    eexists _, k. repeat split; [exact Ham | exact Hnd | exact H |].
    left. rewrite map_map. cbn [fst]. rewrite map_id. exact Hk.
  - exists [], 0. repeat split; [exact Ham | exact Hnd | |now right].
    now apply main_disabled.
Qed.

End Engine.

(** ** Ranking, truncation and duplicates *)

Lemma rank_of_priority (skills_ : list (str * SkillConfig)) (name p : str) :
  priority_is skills_ name p ->
  rank_of skills_ name = order_get priority_order p 1.
Proof.
  intros (sc & Hget & Hp). unfold rank_of, rank_of_config.
  now rewrite Hget, Hp.
Qed.

Section Ranking.

Variable re : re_module.
Variable set_iter : pyset -> list str.
Hypothesis set_iter_ok : iterates set_iter.

Variable prompt : str.
Variable git_status : option (list str).
Variable skill_rules : SkillRules.

(** The names of the result are duplicate-free, sorted by rank, and keep
    the iteration order of the merged set among equal ranks. *)
Lemma result_names :
  exists am res,
    all_matches re prompt git_status skill_rules = Ok am
    /\ main re set_iter prompt git_status skill_rules = Ok res
    /\ NoDup (map fst res)
    /\ StronglySorted (key_le (rank_of (get (skills skill_rules) [])))
         (map fst res)
    /\ forall x y,
         precedes (set_iter am) x y ->
         rank_of (get (skills skill_rules) []) x
         <= rank_of (get (skills skill_rules) []) y ->
         In y (map fst res) ->
         precedes (map fst res) x y.
Proof.
  destruct (main_names re prompt git_status skill_rules set_iter_ok)
    as (am & res & k & Ham & Hnd & Hres & [Hnames| ->]).
  - exists am, res. split; [exact Ham|]. split; [exact Hres|].
    assert (Hsnd : NoDup (sort_by (rank_of (get (skills skill_rules) []))
                            (set_iter am))).
    { eapply Permutation_NoDup; [symmetry; apply sort_by_perm|].
      eapply Permutation_NoDup; [symmetry; apply set_iter_ok | exact Hnd]. }
    rewrite Hnames. split; [|split].
    + rewrite <- (firstn_skipn k) in Hsnd. now apply NoDup_app_remove_r in Hsnd.
    + apply sorted_firstn, sort_by_sorted.
    + intros x y Hxy Hle Hy. apply precedes_firstn; [exact Hsnd | | exact Hy].
      now apply sort_by_stable.
  - exists am, []. split; [exact Ham|]. split; [exact Hres|].
    split; [constructor|]. split; [constructor|]. intros x y _ _ [].
Qed.

End Ranking.

(** C4, as the engine has it.  Among matching skills of equal priority the
    result keeps the order in which the loop over the merged match set
    visits them: the sort by priority is stable.  That order is the set's
    iteration order, which need not be the order of discovery. *)
Theorem equal_priority_keeps_iteration_order (re : re_module)
    (set_iter : pyset -> list str) (prompt : str)
    (git_status : option (list str)) (skill_rules : SkillRules) :
  iterates set_iter ->
  exists am res,
    all_matches re prompt git_status skill_rules = Ok am
    /\ main re set_iter prompt git_status skill_rules = Ok res
    /\ forall x y,
         precedes (set_iter am) x y ->
         rank_of (get (skills skill_rules) []) x
         = rank_of (get (skills skill_rules) []) y ->
         In y (map fst res) ->
         precedes (map fst res) x y.
Proof.
  intros Hiter.
  destruct (result_names re Hiter prompt git_status skill_rules)
    as (am & res & Ham & Hres & _ & _ & Hstable).
  exists am, res. split; [exact Ham|]. split; [exact Hres|].
  intros x y Hxy Heq Hy. apply Hstable; [exact Hxy | lia | exact Hy].
Qed.

(** C5.  The result is ordered by priority: a retained skill configured
    ["high"] precedes every retained skill configured ["medium"] or ["low"],
    and one configured ["medium"] precedes every one configured ["low"]. *)
Theorem result_ordered_by_priority (re : re_module)
    (set_iter : pyset -> list str) (prompt : str)
    (git_status : option (list str)) (skill_rules : SkillRules) :
  iterates set_iter ->
  exists res,
    main re set_iter prompt git_status skill_rules = Ok res
    /\ forall a b,
         let skills_ := get (skills skill_rules) [] in
         In a (map fst res) -> In b (map fst res) ->
         (priority_is skills_ a "high" /\ priority_is skills_ b "medium")
         \/ (priority_is skills_ a "high" /\ priority_is skills_ b "low")
         \/ (priority_is skills_ a "medium" /\ priority_is skills_ b "low") ->
         precedes (map fst res) a b.
Proof.
  intros Hiter.
  destruct (result_names re Hiter prompt git_status skill_rules)
    as (am & res & _ & Hres & _ & Hsorted & _).
  exists res. split; [exact Hres|].
  intros a b skills_ Ha Hb Hprio.
  assert (Hlt : rank_of skills_ a < rank_of skills_ b).
  { destruct Hprio as [[Hpa Hpb]|[[Hpa Hpb]|[Hpa Hpb]]];
      rewrite (rank_of_priority Hpa), (rank_of_priority Hpb);
      vm_compute; lia. }
  assert (Hne : a <> b) by (intros ->; lia).
  destruct (@precedes_or _ a b _ Ha Hb Hne) as [H|H]; [exact H|].
  apply (sorted_precedes Hsorted) in H. unfold skills_ in Hlt. lia.
Qed.

(** C6.  The result never holds more than [maxSimultaneousSkills] entries
    (a count, so not negative; 3 when the field is absent); with 0 it is
    empty. *)
Theorem result_length_at_most_max (re : re_module)
    (set_iter : pyset -> list str) (prompt : str)
    (git_status : option (list str)) (skill_rules : SkillRules) :
  iterates set_iter ->
  (0 <= max_skills_of skill_rules)%Z ->
  exists res,
    main re set_iter prompt git_status skill_rules = Ok res
    /\ (Z.of_nat (length res) <= max_skills_of skill_rules)%Z
    /\ (max_skills_of skill_rules = 0%Z -> res = []).
Proof.
  intros Hiter Hmax.
  assert (H : exists res,
             main re set_iter prompt git_status skill_rules = Ok res
             /\ (Z.of_nat (length res) <= max_skills_of skill_rules)%Z).
  { destruct (activation_enabled skill_rules) eqn:Hen.
    - destruct (main_enabled re prompt git_status skill_rules Hiter Hen)
        as (pm & cm & _ & _ & H).
      eexists. split; [exact H|]. rewrite length_map.
      now apply slice_to_length.
    - exists []. split; [now apply main_disabled | exact Hmax]. }
  destruct H as (res & Hres & Hlen). exists res.
  split; [exact Hres|]. split; [exact Hlen|].
  intros H0. rewrite H0 in Hlen. destruct res; [reflexivity|].
  cbn [length] in Hlen. lia.
Qed.

(** C7.  No skill name appears twice in the result, also when the skill
    matched both by the prompt and by the modified files. *)
Theorem result_has_no_duplicate (re : re_module)
    (set_iter : pyset -> list str) (prompt : str)
    (git_status : option (list str)) (skill_rules : SkillRules) :
  iterates set_iter ->
  exists res,
    main re set_iter prompt git_status skill_rules = Ok res
    /\ NoDup (map fst res).
Proof.
  intros Hiter.
  destruct (result_names re Hiter prompt git_status skill_rules)
    as (am & res & _ & Hres & Hnd & _).
  now exists res.
Qed.

(** C8.  With [autoActivationEnabled] false, or with the skills mapping
    absent or empty, the result is empty whatever the prompt and the
    modified files are. *)
Theorem disabled_or_no_skills_gives_empty (re : re_module)
    (set_iter : pyset -> list str) (prompt : str)
    (git_status : option (list str)) (skill_rules : SkillRules) :
  autoActivationEnabled (get (meta skill_rules) no_meta) = Some false
  \/ skills skill_rules = None
  \/ skills skill_rules = Some [] ->
  main re set_iter prompt git_status skill_rules = Ok [].
Proof.
  intros H. apply main_disabled. unfold activation_enabled.
  destruct H as [H|[H|H]]; rewrite H; [|reflexivity..].
  now destruct (skills skill_rules) as [[|? ?]|].
Qed.

(** ** An absent or unknown priority *)

Lemma unranked_rank (sc : SkillConfig) : unranked sc -> rank_of_config sc = 1.
Proof.
  unfold unranked, rank_of_config. destruct (priority sc) as [p|].
  - intros (Hh & Hm & Hl). cbn [get priority_order order_get].
    destruct (str_eqb "high" p) eqn:E1;
      [apply str_eqb_eq in E1; now subst|].
    destruct (str_eqb "medium" p) eqn:E2; [reflexivity|].
    destruct (str_eqb "low" p) eqn:E3;
      [apply str_eqb_eq in E3; now subst | reflexivity].
  - intros _. reflexivity.
Qed.

Section Relabel.

Variable re : re_module.
Variable name : str.

Lemma relabel_fst (item : str * SkillConfig) :
  fst (relabel name item) = fst item.
Proof. unfold relabel. now destruct (str_eqb (fst item) name). Qed.

Lemma relabel_prompt_matched (prompt : str) (item : str * SkillConfig)
    (meta_ : Meta) :
  prompt_skill_matched re prompt (snd (relabel name item)) meta_
  = prompt_skill_matched re prompt (snd item) meta_.
Proof. unfold relabel. now destruct (str_eqb (fst item) name). Qed.

Lemma relabel_analyze_prompt_loop (prompt : str)
    (items : list (str * SkillConfig)) (meta_ : Meta) (acc : pyset) :
  analyze_prompt_loop re prompt (map (relabel name) items) meta_ acc
  = analyze_prompt_loop re prompt items meta_ acc.
Proof.
  revert acc; induction items as [|item items IH]; intros acc;
    [reflexivity|].
  cbn [map analyze_prompt_loop].
  pose proof (relabel_fst item) as Hf.
  pose proof (relabel_prompt_matched prompt item meta_) as Hp.
  destruct (relabel name item) as [n' sc'], item as [n sc].
  cbn [fst snd] in Hf, Hp. subst n'. rewrite Hp.
  destruct (prompt_skill_matched re prompt sc meta_); [|reflexivity].
  cbn [bind]. apply IH.
Qed.

Lemma relabel_analyze_file_context_loop (modified_files : list str)
    (items : list (str * SkillConfig)) (acc : pyset) :
  analyze_file_context_loop re modified_files (map (relabel name) items) acc
  = analyze_file_context_loop re modified_files items acc.
Proof.
  revert acc; induction items as [|item items IH]; intros acc;
    [reflexivity|].
  cbn [map analyze_file_context_loop].
  assert (Hr : relabel name item
               = (fst item,
                  snd (relabel name item))
               /\ fileTriggers (snd (relabel name item))
                  = fileTriggers (snd item)).
  { unfold relabel. destruct (str_eqb (fst item) name); destruct item; auto. }
  destruct Hr as [Hr Hf]. rewrite Hr, Hf. destruct item as [n sc].
  cbn [fst snd].
  destruct (files_loop re modified_files _ n acc); [|reflexivity].
  cbn [bind]. apply IH.
Qed.

Lemma relabel_rank_lookup (d : list (str * SkillConfig)) (key : str) :
  (forall sc, In (name, sc) d -> unranked sc) ->
  rank_lookup (map (relabel name) d) key = rank_lookup d key.
Proof.
  unfold rank_lookup.
  induction d as [|[k v] d IH]; intros H; [reflexivity|].
  cbn [map dict_getitem]. unfold relabel at 1. cbn [fst snd].
  destruct (str_eqb k name) eqn:Ek.
  - destruct (str_eqb k key); [|apply IH; intros; apply H; now right].
    cbn [bind]. apply str_eqb_eq in Ek. subst k.
    rewrite (@unranked_rank v (H v (or_introl eq_refl))). reflexivity.
  - destruct (str_eqb k key); [reflexivity|].
    apply IH; intros; apply H; now right.
Qed.

Lemma prioritize_by_rank_lookup (d : list (str * SkillConfig)) (key : str)
    (names : list str) :
  prioritize (key :: names) d
  = (k <- rank_lookup d key ;;
     tail <- prioritize names d ;;
     Ok ((key, k) :: tail)).
Proof.
  cbn [prioritize]. unfold rank_lookup, rank_of_config.
  now destruct (dict_getitem d key).
Qed.

Lemma relabel_prioritize (d : list (str * SkillConfig)) (names : list str) :
  (forall sc, In (name, sc) d -> unranked sc) ->
  prioritize names (map (relabel name) d) = prioritize names d.
Proof.
  intros H. induction names as [|n names IH]; [reflexivity|].
  rewrite !prioritize_by_rank_lookup, relabel_rank_lookup, IH by exact H.
  reflexivity.
Qed.

End Relabel.

(** C10.  A skill whose configuration has no [priority], or a [priority]
    other than ["high"], ["medium"] and ["low"], is ranked exactly as if its
    priority were ["medium"]: writing ["medium"] into its entry changes
    nothing in what the engine returns. *)
Theorem unknown_priority_ranks_as_medium (re : re_module)
    (set_iter : pyset -> list str) (prompt : str)
    (git_status : option (list str)) (skill_rules : SkillRules)
    (skill_name : str) :
  (forall skill_config,
     In (skill_name, skill_config) (get (skills skill_rules) []) ->
     unranked skill_config) ->
  main re set_iter prompt git_status (set_medium skill_name skill_rules)
  = main re set_iter prompt git_status skill_rules.
Proof.
  intros H. unfold main, set_medium, analyze_prompt, analyze_file_context.
  cbn [skills meta].
  destruct (skills skill_rules) as [[|item items]|]; try reflexivity.
  cbn [option_map get] in *.
  change (relabel skill_name item :: map (relabel skill_name) items)
    with (map (relabel skill_name) (item :: items)).
  destruct (negb _); [reflexivity|].
  rewrite relabel_analyze_prompt_loop.
  destruct (analyze_prompt_loop re prompt (item :: items) _ []) as [pm|];
    [|reflexivity].
  cbn [bind]. destruct git_status as [files|].
  - rewrite relabel_analyze_file_context_loop.
    destruct (analyze_file_context_loop re files (item :: items) [])
      as [cm|]; [|reflexivity].
    cbn [bind]. now rewrite relabel_prioritize.
  - cbn [bind]. now rewrite relabel_prioritize.
Qed.

(** ** Malformed trigger entries *)

Section Quiet.

Variable re : re_module.

Lemma quiet_pattern_found (prompt pattern : str) :
  pattern_found (quiet re) prompt pattern = pattern_found re prompt pattern.
Proof.
  unfold pattern_found, quiet. cbn [re_search_ignorecase].
  now destruct (re_search_ignorecase re pattern prompt).
Qed.

Lemma quiet_score_patterns (pats : list str) (prompt : str) (score : nat) :
  score_patterns (quiet re) pats prompt score
  = score_patterns re pats prompt score.
Proof.
  rewrite !score_patterns_count.
  rewrite (filter_ext _ _ (quiet_pattern_found prompt)). reflexivity.
Qed.

Lemma quiet_prompt_skill_matched (prompt : str) (sc : SkillConfig)
    (meta_ : Meta) :
  prompt_skill_matched (quiet re) prompt sc meta_
  = prompt_skill_matched re prompt sc meta_.
Proof. unfold prompt_skill_matched. now rewrite quiet_score_patterns. Qed.

Lemma quiet_analyze_prompt (prompt : str) (skill_rules : SkillRules) :
  analyze_prompt (quiet re) prompt skill_rules
  = analyze_prompt re prompt skill_rules.
Proof.
  unfold analyze_prompt. generalize (@nil str) as acc.
  induction (get (skills skill_rules) []) as [|[n sc] items IH]; intros acc;
    [reflexivity|].
  cbn [analyze_prompt_loop]. rewrite quiet_prompt_skill_matched.
  destruct (prompt_skill_matched re prompt sc _); [|reflexivity].
  cbn [bind]. apply IH.
Qed.

Lemma quiet_patterns_loop (path_patterns : list str) (file_path : str) :
  patterns_loop (quiet re) path_patterns file_path
  = patterns_loop re path_patterns file_path.
Proof.
  induction path_patterns as [|p ps IH]; [reflexivity|].
  cbn [patterns_loop]. unfold path_pattern_test, quiet at 1.
  cbn [re_match documented call_match call_result].
  destruct (re_match re (glob_to_regex p) file_path); cbn [outcome_result];
    [reflexivity | exact IH | exact IH].
Qed.

Lemma quiet_files_loop (modified_files path_patterns : list str)
    (skill_name : str) (acc : pyset) :
  files_loop (quiet re) modified_files path_patterns skill_name acc
  = files_loop re modified_files path_patterns skill_name acc.
Proof.
  revert acc; induction modified_files as [|f fs IH]; intros acc;
    [reflexivity|].
  cbn [files_loop]. rewrite quiet_patterns_loop.
  destruct (patterns_loop re path_patterns f); [|reflexivity].
  cbn [bind]. apply IH.
Qed.

Lemma quiet_analyze_file_context (git_status : option (list str))
    (skill_rules : SkillRules) :
  analyze_file_context (quiet re) git_status skill_rules
  = analyze_file_context re git_status skill_rules.
Proof.
  destruct git_status as [files|]; [|reflexivity].
  unfold analyze_file_context. generalize (@nil str) as acc.
  induction (get (skills skill_rules) []) as [|[n sc] items IH]; intros acc;
    [reflexivity|].
  cbn [analyze_file_context_loop]. rewrite quiet_files_loop.
  destruct (files_loop re files _ n acc); [|reflexivity].
  cbn [bind]. apply IH.
Qed.

Lemma quiet_main (set_iter : pyset -> list str) (prompt : str)
    (git_status : option (list str)) (skill_rules : SkillRules) :
  main (quiet re) set_iter prompt git_status skill_rules
  = main re set_iter prompt git_status skill_rules.
Proof.
  unfold main.
  now rewrite quiet_analyze_prompt, quiet_analyze_file_context.
Qed.

End Quiet.

Lemma slice_to_all (A : Type) (n : Z) (l : list A) :
  (Z.of_nat (length l) <= n)%Z -> slice_to n l = l.
Proof.
  intros H. unfold slice_to. destruct (Z.leb_spec 0 n); [|lia].
  apply firstn_all2. lia.
Qed.

(** X15.  For an [re] that raises nothing but [re.error]: an intent pattern
    or a glob on which it raises is passed over, and the engine returns what
    it would return if every such entry had simply not matched; a skill
    whose own triggers match is in the match set whatever its siblings
    hold, and in the result when the cap leaves room for all matches. *)
Theorem malformed_trigger_is_a_non_match (re : re_module)
    (set_iter : pyset -> list str) (prompt : str)
    (git_status : option (list str)) (skill_rules : SkillRules) :
  iterates set_iter ->
  exists am res,
    all_matches re prompt git_status skill_rules = Ok am
    /\ main re set_iter prompt git_status skill_rules = Ok res
    /\ main (quiet re) set_iter prompt git_status skill_rules = Ok res
    /\ (forall pattern rest score,
          re_search_ignorecase re pattern prompt = ReError ->
          score_patterns re (pattern :: rest) prompt score
          = score_patterns re rest prompt score)
    /\ (forall pattern rest file_path,
          re_match re (glob_to_regex pattern) file_path = ReError ->
          patterns_loop re (pattern :: rest) file_path
          = patterns_loop re rest file_path)
    /\ forall name sc,
         In (name, sc) (get (skills skill_rules) []) ->
         prompt_skill_matched re prompt sc (get (meta skill_rules) no_meta)
         = Ok true
         \/ (exists modified_files,
               git_status = Some modified_files
               /\ file_skill_matched re modified_files sc = true) ->
         In name am
         /\ (activation_enabled skill_rules = true ->
             (Z.of_nat (length am) <= max_skills_of skill_rules)%Z ->
             In name (map fst res)).
Proof.
  intros Hiter.
  destruct (analyze_prompt_spec re prompt skill_rules) as (pm & Hpm & _ & Hp).
  destruct (analyze_file_context_spec re git_status skill_rules)
    as (cm & Hcm & _ & Hc).
  destruct (main_total re prompt git_status skill_rules Hiter) as [res Hres].
  exists (set_union pm cm), res.
  split; [unfold all_matches; now rewrite Hpm, Hcm|].
  split; [exact Hres|]. split; [now rewrite quiet_main|].
  split; [|split].
  - intros pattern rest score H.
    cbn [score_patterns documented call_search_ignorecase call_result].
    now rewrite H.
  - intros pattern rest file_path H. cbn [patterns_loop].
    unfold path_pattern_test. cbn [documented call_match call_result].
    now rewrite H.
  - intros name sc Hin Hmatch.
    assert (Ham : In name (set_union pm cm)).
    { apply set_union_In. destruct Hmatch as [H|(files & Hg & H)].
      - left. apply Hp. now exists sc.
      - right. apply Hc. now exists files, sc. }
    split; [exact Ham|]. intros Hen Hcap.
    destruct (main_enabled re prompt git_status skill_rules Hiter Hen)
      as (pm' & cm' & Hpm' & Hcm' & Hmain).
    rewrite Hpm in Hpm'. rewrite Hcm in Hcm'.
    injection Hpm' as <-. injection Hcm' as <-.
    rewrite Hres in Hmain. injection Hmain as ->.
    rewrite map_map. cbn [fst]. rewrite map_id.
    rewrite slice_to_all.
    + eapply Permutation_in; [symmetry; apply sort_by_perm|].
      eapply Permutation_in; [symmetry; apply Hiter | exact Ham].
    + rewrite (Permutation_length (sort_by_perm _ _)).
      now rewrite (Permutation_length (Hiter _)).
Qed.

(** ** The claims on the sample configurations *)

Lemma insertion_order_iterates : iterates insertion_order.
Proof. intros s. apply Permutation_refl. Qed.

Lemma reverse_order_iterates : iterates reverse_order.
Proof. intros s. symmetry. apply Permutation_rev. Qed.

(** C4, as stated, fails.  Both skills of [tie_rules] match the prompt and
    have priority ["medium"]; ["X"] is discovered first (it is first in the
    match set as it was built); a set that iterates in the other order makes
    the result list ["Y"] first. *)
Lemma discovery_order_not_kept :
  iterates reverse_order
  /\ all_matches Frag.re tie_prompt None tie_rules
     = Ok [("X" : str); ("Y" : str)]
  /\ rank_of (get (skills tie_rules) []) "X"
     = rank_of (get (skills tie_rules) []) "Y"
  /\ main Frag.re reverse_order tie_prompt None tie_rules
     = Ok [("Y" : str, "Prompt keywords/patterns matched" : str);
           ("X" : str, "Prompt keywords/patterns matched" : str)]
  /\ (precedes [("Y" : str); ("X" : str)] ("X" : str) ("Y" : str) -> False).
Proof.
  split; [exact reverse_order_iterates|].
  split; [vm_compute; reflexivity|].
  split; [vm_compute; reflexivity|].
  split; [vm_compute; reflexivity|].
  intros (l1 & l2 & l3 & E).
  destruct l1 as [|a [|b l1]]; cbn [app] in E.
  - discriminate E.
  - destruct l2; discriminate E.
  - destruct l1; discriminate E.
Qed.

Lemma equal_priority_keeps_iteration_order_witness :
  iterates reverse_order
  /\ exists am res,
       all_matches Frag.re tie_prompt None tie_rules = Ok am
       /\ main Frag.re reverse_order tie_prompt None tie_rules = Ok res
       /\ forall x y,
            precedes (reverse_order am) x y ->
            rank_of (get (skills tie_rules) []) x
            = rank_of (get (skills tie_rules) []) y ->
            In y (map fst res) ->
            precedes (map fst res) x y.
Proof.
  split; [exact reverse_order_iterates|].
  exact (equal_priority_keeps_iteration_order Frag.re tie_prompt None
           tie_rules reverse_order_iterates).
Defined.

Lemma result_ordered_by_priority_witness :
  iterates insertion_order
  /\ main Frag.re insertion_order tie_prompt None ranked_rules
     = Ok [("H" : str, "Prompt keywords/patterns matched" : str);
           ("M" : str, "Prompt keywords/patterns matched" : str);
           ("L" : str, "Prompt keywords/patterns matched" : str)]
  /\ priority_is (get (skills ranked_rules) []) "H" "high"
  /\ priority_is (get (skills ranked_rules) []) "M" "medium"
  /\ priority_is (get (skills ranked_rules) []) "L" "low"
  /\ precedes ["H" : str; "M" : str; "L" : str] "H" "M"
  /\ precedes ["H" : str; "M" : str; "L" : str] "H" "L"
  /\ precedes ["H" : str; "M" : str; "L" : str] "M" "L".
Proof.
  assert (HH : priority_is (get (skills ranked_rules) []) "H" "high")
    by (eexists; split; vm_compute; reflexivity).
  assert (HM : priority_is (get (skills ranked_rules) []) "M" "medium")
    by (eexists; split; vm_compute; reflexivity).
  assert (HL : priority_is (get (skills ranked_rules) []) "L" "low")
    by (eexists; split; vm_compute; reflexivity).
  destruct (result_ordered_by_priority Frag.re tie_prompt None ranked_rules
              insertion_order_iterates) as (res & Hres & Hord).
  assert (Hrun : main Frag.re insertion_order tie_prompt None ranked_rules
                 = Ok [("H" : str, "Prompt keywords/patterns matched" : str);
                       ("M" : str, "Prompt keywords/patterns matched" : str);
                       ("L" : str, "Prompt keywords/patterns matched" : str)])
    by (vm_compute; reflexivity).
  rewrite Hrun in Hres. injection Hres as <-. cbn [map fst] in Hord.
  split; [exact insertion_order_iterates|]. split; [exact Hrun|].
  split; [exact HH|]. split; [exact HM|]. split; [exact HL|].
  split; [|split].
  - apply Hord; [in_list | in_list | left; split; assumption].
  - apply Hord; [in_list | in_list | right; left; split; assumption].
  - apply Hord; [in_list | in_list | right; right; split; assumption].
Defined.

Lemma result_length_at_most_max_witness :
  iterates insertion_order
  /\ (0 <= max_skills_of sample_rules)%Z
  /\ exists res,
       main Frag.re insertion_order sample_prompt sample_git_status
         sample_rules = Ok res
       /\ (Z.of_nat (length res) <= max_skills_of sample_rules)%Z
       /\ (max_skills_of sample_rules = 0%Z -> res = []).
Proof.
  split; [exact insertion_order_iterates|].
  split; [vm_compute; discriminate|].
  apply (result_length_at_most_max Frag.re sample_prompt sample_git_status
           sample_rules insertion_order_iterates).
  vm_compute; discriminate.
Defined.

Lemma result_has_no_duplicate_witness :
  iterates insertion_order
  /\ exists res,
       main Frag.re insertion_order sample_prompt sample_git_status
         sample_rules = Ok res
       /\ NoDup (map fst res).
Proof.
  split; [exact insertion_order_iterates|].
  exact (result_has_no_duplicate Frag.re sample_prompt sample_git_status
           sample_rules insertion_order_iterates).
Defined.

Lemma disabled_or_no_skills_gives_empty_witness :
  autoActivationEnabled (get (meta disabled_rules) no_meta) = Some false
  /\ main Frag.re insertion_order sample_prompt sample_git_status
       disabled_rules = Ok [].
Proof.
  split; [reflexivity|].
  apply disabled_or_no_skills_gives_empty. left. reflexivity.
Defined.

Lemma malformed_trigger_is_a_non_match_witness :
  iterates insertion_order
  /\ re_search_ignorecase Frag.re "(" sample_prompt = ReError
  /\ re_match Frag.re (glob_to_regex "{a,b") "src/app.test.ts" = ReError
  /\ exists am res,
       all_matches Frag.re sample_prompt sample_git_status sample_rules = Ok am
       /\ main Frag.re insertion_order sample_prompt sample_git_status
            sample_rules = Ok res
       /\ main (quiet Frag.re) insertion_order sample_prompt sample_git_status
            sample_rules = Ok res
       /\ (forall pattern rest score,
             re_search_ignorecase Frag.re pattern sample_prompt = ReError ->
             score_patterns Frag.re (pattern :: rest) sample_prompt score
             = score_patterns Frag.re rest sample_prompt score)
       /\ (forall pattern rest file_path,
             re_match Frag.re (glob_to_regex pattern) file_path = ReError ->
             patterns_loop Frag.re (pattern :: rest) file_path
             = patterns_loop Frag.re rest file_path)
       /\ forall name sc,
            In (name, sc) (get (skills sample_rules) []) ->
            prompt_skill_matched Frag.re sample_prompt sc
              (get (meta sample_rules) no_meta) = Ok true
            \/ (exists modified_files,
                  sample_git_status = Some modified_files
                  /\ file_skill_matched Frag.re modified_files sc = true) ->
            In name am
            /\ (activation_enabled sample_rules = true ->
                (Z.of_nat (length am) <= max_skills_of sample_rules)%Z ->
                In name (map fst res)).
Proof.
  split; [exact insertion_order_iterates|].
  split; [vm_compute; reflexivity|].
  split; [vm_compute; reflexivity|].
  exact (malformed_trigger_is_a_non_match Frag.re sample_prompt
           sample_git_status sample_rules insertion_order_iterates).
Defined.

(** An exception of [re] other than [re.error] leaves the two loops. *)
Lemma score_patterns_fails (re : re_impl) (pattern : str)
    (rest : list str) (prompt : str) (score : nat) (e : exn) :
  call_search_ignorecase re pattern prompt = Fails e ->
  e <> re_error ->
  score_patterns re (pattern :: rest) prompt score = Raise e.
Proof.
  intros H He. cbn [score_patterns]. rewrite H. cbn [call_result].
  destruct e; [contradiction|reflexivity..].
Qed.

Lemma patterns_loop_fails (re : re_impl) (pattern : str)
    (rest : list str) (file_path : str) (e : exn) :
  call_match re (glob_to_regex pattern) file_path = Fails e ->
  e <> re_error ->
  patterns_loop re (pattern :: rest) file_path = Raise e.
Proof.
  intros H He. cbn [patterns_loop]. unfold path_pattern_test. rewrite H.
  cbn [call_result]. destruct e; [contradiction|reflexivity..].
Qed.

(** C9.  The engine does raise for one kind of malformed trigger entry: an
    intent pattern whose repeat count is too large makes [re.search] raise
    [OverflowError], which [except re.error] does not catch; the prompt
    scorer, [main] and the script end with it, and the sibling skill, which
    is in the result when the entry is absent or raises [re.error], is
    lost. *)
Theorem overflowing_repeat_count_stops_the_engine :
  call_search_ignorecase cpython_re "a{99999999999}" tie_prompt
  = Fails OverflowError
  /\ analyze_prompt cpython_re tie_prompt overflow_rules = Raise OverflowError
  /\ main cpython_re insertion_order tie_prompt None overflow_rules
     = Raise OverflowError
  /\ main cpython_re reverse_order tie_prompt None overflow_rules
     = Raise OverflowError
  /\ script cpython_re insertion_order
       ["skill_activator.py" : str; tie_prompt] (RulesLoaded overflow_rules)
       sample_subprocess
     = Uncaught (EngineError OverflowError)
  /\ call_search_ignorecase cpython_re "(" tie_prompt = Answers ReError
  /\ main cpython_re insertion_order tie_prompt None unbalanced_rules
     = Ok [("sibling" : str, "Prompt keywords/patterns matched" : str)]
  /\ main cpython_re insertion_order tie_prompt None
       {| skills := Some (tl (get (skills overflow_rules) []));
          meta := meta overflow_rules |}
     = Ok [("sibling" : str, "Prompt keywords/patterns matched" : str)].
Proof. repeat split; vm_compute; reflexivity. Qed.

Lemma network_is_unranked (skill_config : SkillConfig) :
  In ("network" : str, skill_config) (get (skills sample_rules) []) ->
  unranked skill_config.
Proof.
  intros [H|[H|[H|[]]]]; try discriminate H.
  injection H as <-. exact I.
Qed.

Lemma unknown_priority_ranks_as_medium_witness :
  (forall skill_config,
     In ("network" : str, skill_config) (get (skills sample_rules) []) ->
     unranked skill_config)
  /\ main Frag.re insertion_order sample_prompt sample_git_status
       (set_medium "network" sample_rules)
     = main Frag.re insertion_order sample_prompt sample_git_status
         sample_rules.
Proof.
  split; [exact network_is_unranked|].
  exact (unknown_priority_ranks_as_medium Frag.re insertion_order
           sample_prompt sample_git_status sample_rules "network"
           network_is_unranked).
Defined.

(** ** Matching on the fragment: derivatives against the language *)

Section DerivativeMatching.

Variable ceq : ascii -> ascii -> bool.

Lemma matches_nil_nullable (r : Frag.regex) (w : str) :
  Frag.matches ceq r w -> w = [] -> Frag.nullable r = true.
Proof.
  induction 1 as [ | | | | r1 r2 u v _ IH1 _ IH2 | r1 r2 u _ IH | r1 r2 u _ IH
                   | | | r u _ IH ]; intros E; try discriminate; simpl;
    try reflexivity.
  - apply app_eq_nil in E as [-> ->]. now rewrite IH1, IH2.
  - now rewrite IH.
  - rewrite IH by exact E. apply orb_true_r.
  - now apply IH.
Qed.

Lemma nullable_matches_nil (r : Frag.regex) :
  Frag.nullable r = true -> Frag.matches ceq r [].
Proof.
  induction r; simpl; intros H; try discriminate.
  - constructor.
  - apply andb_true_iff in H as [H1 H2].
    change (@nil ascii) with (@nil ascii ++ []). constructor; auto.
  - apply orb_true_iff in H as [H|H];
      [apply Frag.MAltL | apply Frag.MAltR]; auto.
  - constructor.
  - constructor. auto.
Qed.

Lemma star_cons_inv (r : Frag.regex) (c : ascii) (w : str) :
  Frag.matches ceq (Frag.Star r) (c :: w) ->
  exists u v,
    w = u ++ v /\ Frag.matches ceq r (c :: u)
    /\ Frag.matches ceq (Frag.Star r) v.
Proof.
  intros H. remember (Frag.Star r) as sr eqn:Esr.
  remember (c :: w) as s eqn:Es. revert c w Es.
  induction H as [ | | | | | | | | r0 u v Hu _ Hv IHv | ];
    try discriminate Esr; intros c w Es.
  - discriminate Es.
  - injection Esr as ->. destruct u as [|c' u]; cbn [app] in Es.
    + now apply IHv.
    + injection Es as -> <-. now exists u, v.
Qed.

Lemma deriv_sound (c : ascii) (r : Frag.regex) (w : str) :
  Frag.matches ceq (Frag.deriv ceq c r) w -> Frag.matches ceq r (c :: w).
Proof.
  revert w; induction r as [ | | a | | | r1 IH1 r2 IH2 | r1 IH1 r2 IH2
                           | r IH | r IH ]; intros w H; cbn [Frag.deriv] in H.
  - inversion H.
  - inversion H.
  - destruct (ceq a c) eqn:E; inversion H; subst. now constructor.
  - destruct (Ascii.eqb_spec c Frag.newline); inversion H; subst.
    now constructor.
  - destruct (Ascii.eqb_spec c Frag.slash); inversion H; subst.
    now constructor.
  - assert (Hcat : forall w', Frag.matches ceq
                                (Frag.Cat (Frag.deriv ceq c r1) r2) w' ->
                              Frag.matches ceq (Frag.Cat r1 r2) (c :: w')).
    { intros w' H'. inversion H'; subst.
      change (c :: u ++ v) with ((c :: u) ++ v). constructor; auto. }
    destruct (Frag.nullable r1) eqn:En; [|now apply Hcat].
    inversion H; subst; [now apply Hcat|].
    change (c :: w) with ([] ++ c :: w).
    constructor; [now apply nullable_matches_nil | auto].
  - inversion H; subst; [apply Frag.MAltL | apply Frag.MAltR]; auto.
  - inversion H; subst.
    change (c :: u ++ v) with ((c :: u) ++ v). constructor; auto.
  - constructor. auto.
Qed.

Lemma deriv_complete (c : ascii) (r : Frag.regex) (w : str) :
  Frag.matches ceq r (c :: w) -> Frag.matches ceq (Frag.deriv ceq c r) w.
Proof.
  revert w; induction r as [ | | a | | | r1 IH1 r2 IH2 | r1 IH1 r2 IH2
                           | r IH | r IH ]; intros w H; cbn [Frag.deriv].
  - inversion H.
  - inversion H.
  - inversion H; subst.
    match goal with Hc : ceq _ _ = true |- _ => rewrite Hc end. constructor.
  - inversion H; subst.
    destruct (Ascii.eqb_spec c Frag.newline); [contradiction | constructor].
  - inversion H; subst.
    destruct (Ascii.eqb_spec c Frag.slash); [contradiction | constructor].
  - inversion H as [ | | | | r1' r2' u v Hu Hv E1 E2 | | | | | ]; subst.
    destruct u as [|c' u]; cbn [app] in E2.
    + subst v. rewrite (matches_nil_nullable Hu eq_refl).
      apply Frag.MAltR. auto.
    + injection E2 as -> <-.
      assert (Hc : Frag.matches ceq (Frag.Cat (Frag.deriv ceq c r1) r2)
                     (u ++ v)) by (constructor; auto).
      destruct (Frag.nullable r1); [now apply Frag.MAltL | exact Hc].
  - inversion H; subst; [apply Frag.MAltL | apply Frag.MAltR]; auto.
  - apply star_cons_inv in H as (u & v & -> & Hu & Hv). constructor; auto.
  - inversion H; subst. auto.
Qed.

Lemma accepts_spec (r : Frag.regex) (s : str) :
  Frag.accepts ceq r s = true <-> Frag.matches ceq r s.
Proof.
  revert r; induction s as [|c s IH]; intros r; cbn [Frag.accepts].
  - split; [apply nullable_matches_nil|].
    intros H. now apply (matches_nil_nullable H).
  - rewrite IH. split; [apply deriv_sound | apply deriv_complete].
Qed.

(** [re.match] succeeds exactly when the regex matches a prefix. *)
Lemma match_prefix_spec (r : Frag.regex) (s : str) :
  Frag.match_prefix ceq r s = true
  <-> exists u v, s = u ++ v /\ Frag.matches ceq r u.
Proof.
  revert r; induction s as [|c s IH]; intros r; cbn [Frag.match_prefix].
  - rewrite orb_false_r. split.
    + intros H. exists [], []. split; [reflexivity|].
      now apply nullable_matches_nil.
    + intros (u & v & E & H). symmetry in E.
      apply app_eq_nil in E as [-> _]. now apply (matches_nil_nullable H).
  - rewrite orb_true_iff, IH. split.
    + intros [H|(u & v & -> & H)].
      * exists [], (c :: s). split; [reflexivity|].
        now apply nullable_matches_nil.
      * exists (c :: u), v. split; [reflexivity | now apply deriv_sound].
    + intros (u & v & E & H). destruct u as [|c' u]; cbn [app] in E.
      * left. now apply (matches_nil_nullable H).
      * injection E as <- ->. right. exists u, v.
        split; [reflexivity | now apply deriv_complete].
Qed.

End DerivativeMatching.

(** ** The match test of the file-context scorer *)

Lemma frag_agrees : Frag.agrees Frag.re.
Proof.
  intros pattern s. unfold Frag.re, Frag.outcome_of. cbn [re_match].
  now destruct (Frag.compile pattern).
Qed.

(** On a glob whose translation is in the fragment the test is
    [match_prefix] on the compiled translation. *)
Lemma path_pattern_test_agrees (re : re_module) (pattern file_path : str)
    (r : Frag.regex) :
  Frag.agrees re ->
  Frag.compile (glob_to_regex pattern) = Frag.Parsed r ->
  path_pattern_test re pattern file_path
  = Ok (Frag.match_prefix Frag.ceq_exact r file_path).
Proof.
  intros Hre Hc. unfold path_pattern_test.
  cbn [documented call_match call_result].
  specialize (Hre (glob_to_regex pattern) file_path). rewrite Hc in Hre.
  rewrite Hre. now destruct (Frag.match_prefix Frag.ceq_exact r file_path).
Qed.

(** C3, as stated, fails.  The glob ["src"] matches the proper prefix
    ["src"] of ["src/app.ts"] and not the whole path, and the test reports
    a match. *)
Lemma proper_prefix_is_reported_as_match :
  Frag.compile (glob_to_regex "src") = Frag.Parsed src_regex
  /\ Frag.accepts Frag.ceq_exact src_regex "src" = true
  /\ Frag.accepts Frag.ceq_exact src_regex "src/app.ts" = false
  /\ (Frag.matches Frag.ceq_exact src_regex ("src/app.ts" : str) -> False)
  /\ path_pattern_test Frag.re "src" "src/app.ts" = Ok true.
Proof.
  split; [vm_compute; reflexivity|].
  split; [vm_compute; reflexivity|].
  split; [vm_compute; reflexivity|].
  split; [|vm_compute; reflexivity].
  intros H. apply accepts_spec in H. vm_compute in H. discriminate H.
Qed.

(** C3, as the scorer has it.  For a pattern whose translation lies in the
    fragment (literal characters, [.], [[^/]], [*], groups and [|]; so no
    anchor, escape, [?], [+], [{] or other set), the match test is anchored
    at the start of the path only: the pattern matches a path exactly when
    its translation matches some prefix of the path, so whatever follows a
    matched prefix is ignored and extending a matched path keeps it
    matched.  (For any [re] that agrees with the fragment.) *)
Theorem match_test_is_anchored_at_start_only (re : re_module)
    (pattern file_path : str) (r : Frag.regex) :
  Frag.agrees re ->
  Frag.compile (glob_to_regex pattern) = Frag.Parsed r ->
  (path_pattern_test re pattern file_path = Ok true
   <-> exists u v, file_path = u ++ v /\ Frag.matches Frag.ceq_exact r u)
  /\ (path_pattern_test re pattern file_path = Ok true ->
      forall rest, path_pattern_test re pattern (file_path ++ rest) = Ok true).
Proof.
  intros Hre Hc.
  assert (Hiff : forall p,
             path_pattern_test re pattern p = Ok true
             <-> exists u v, p = u ++ v /\ Frag.matches Frag.ceq_exact r u).
  { intros p. rewrite (@path_pattern_test_agrees re pattern p r Hre Hc).
    rewrite <- match_prefix_spec. split; [now intros [= ->] | now intros ->]. }
  split; [apply Hiff|].
  intros H rest. apply Hiff. apply Hiff in H as (u & v & -> & Hu).
  exists u, (v ++ rest). split; [now rewrite app_assoc | exact Hu].
Qed.

Lemma match_test_is_anchored_at_start_only_witness :
  Frag.agrees Frag.re
  /\ Frag.compile (glob_to_regex "src") = Frag.Parsed src_regex
  /\ (path_pattern_test Frag.re "src" "src/app.ts" = Ok true
      <-> exists u v,
            ("src/app.ts" : str) = u ++ v
            /\ Frag.matches Frag.ceq_exact src_regex u)
  /\ (path_pattern_test Frag.re "src" "src/app.ts" = Ok true ->
      forall rest,
        path_pattern_test Frag.re "src" (("src/app.ts" : str) ++ rest)
        = Ok true).
Proof.
  split; [exact frag_agrees|].
  split; [vm_compute; reflexivity|].
  apply (@match_test_is_anchored_at_start_only Frag.re "src" "src/app.ts"
           src_regex frag_agrees).
  vm_compute; reflexivity.
Defined.

(** ** The translation of a single [*] *)

Lemma plain_char_neq (c o : ascii) :
  plain_char c = true -> In o special_chars -> c <> o.
Proof.
  unfold plain_char. intros H Ho ->. apply negb_true_iff in H.
  assert (E : existsb (Ascii.eqb o) special_chars = true).
  { apply existsb_exists. exists o. split; [exact Ho | apply Ascii.eqb_refl]. }
  congruence.
Qed.

Lemma plain_not_In (s : str) (o : ascii) :
  plain s = true -> In o special_chars -> ~ In o s.
Proof.
  unfold plain. rewrite forallb_forall. intros H Ho Hin.
  now apply (plain_char_neq (H _ Hin) Ho).
Qed.

Lemma startswith_head_neq (o c : ascii) (old' rest : str) :
  o <> c -> startswith (o :: old') (c :: rest) = false.
Proof.
  intros H. cbn [startswith]. destruct (Ascii.eqb_spec o c); [contradiction|].
  reflexivity.
Qed.

Lemma replace_from_past (o : ascii) (old' new pre s : str) :
  ~ In o pre ->
  replace_from (o :: old') new 0 (pre ++ s)
  = pre ++ replace_from (o :: old') new 0 s.
Proof.
  induction pre as [|c pre IH]; intros H; [reflexivity|].
  cbn [app replace_from]. rewrite startswith_head_neq.
  - f_equal. apply IH. intros Hin. apply H. now right.
  - intros ->. apply H. now left.
Qed.

Lemma replace_from_absent (o : ascii) (old' new s : str) :
  ~ In o s -> replace_from (o :: old') new 0 s = s.
Proof.
  intros H. rewrite <- (app_nil_r s) at 1.
  rewrite replace_from_past by exact H. cbn [replace_from]. apply app_nil_r.
Qed.

Lemma replace_absent (o : ascii) (old' new s : str) :
  ~ In o s -> replace (o :: old') new s = s.
Proof. apply replace_from_absent. Qed.

Lemma replace_from_step_no (old new : str) (c : ascii) (rest : str) :
  startswith old (c :: rest) = false ->
  replace_from old new 0 (c :: rest) = c :: replace_from old new 0 rest.
Proof. intros H. cbn [replace_from]. now rewrite H. Qed.

Lemma replace_from_step_yes (old new : str) (c : ascii) (rest : str) :
  startswith old (c :: rest) = true ->
  replace_from old new 0 (c :: rest)
  = new ++ replace_from old new (length old - 1) rest.
Proof. intros H. cbn [replace_from]. now rewrite H. Qed.

Lemma startswith_two_stars (post : str) :
  ~ In "*"%char post ->
  startswith ["*"%char; "*"%char] ("*"%char :: post) = false.
Proof.
  intros H. cbn [startswith]. rewrite Ascii.eqb_refl. cbn [andb].
  destruct post as [|c post]; [reflexivity|].
  destruct (Ascii.eqb_spec "*"%char c) as [<-|Hc]; [|reflexivity].
  exfalso. apply H. now left.
Qed.

Lemma not_In_app (o : ascii) (a b : str) :
  ~ In o a -> ~ In o b -> ~ In o (a ++ b).
Proof. intros Ha Hb H. apply in_app_or in H as [H|H]; auto. Qed.

(** A single [*] between literal text becomes [[^/]*]. *)
Lemma glob_to_regex_single_star (pre post : str) :
  plain pre = true -> plain post = true ->
  glob_to_regex (pre ++ "*" ++ post) = pre ++ "[^/]*" ++ post.
Proof.
  intros Hpre Hpost. unfold glob_to_regex.
  assert (Hstar_pre : ~ In "*"%char pre) by (apply plain_not_In; [easy | in_list]).
  assert (Hstar_post : ~ In "*"%char post) by (apply plain_not_In; [easy | in_list]).
  assert (H1 : replace "**" ".*" (pre ++ "*" ++ post) = pre ++ "*" ++ post).
  { unfold replace. cbn [list_ascii_of_string app].
    rewrite replace_from_past by exact Hstar_pre. f_equal.
    rewrite replace_from_step_no by now apply startswith_two_stars.
    f_equal. now apply replace_from_absent. }
  rewrite H1.
  assert (H2 : replace "*" "[^/]*" (pre ++ "*" ++ post)
               = pre ++ "[^/]*" ++ post).
  { unfold replace. cbn [list_ascii_of_string app].
    rewrite replace_from_past by exact Hstar_pre. f_equal.
    rewrite replace_from_step_yes
      by (cbn [startswith]; now rewrite Ascii.eqb_refl).
    cbn [length Nat.sub app]. do 5 f_equal.
    now apply replace_from_absent. }
  rewrite H2.
  assert (Hkeep : forall o, In o special_chars ->
                            ~ In o ("[^/]*" : str) ->
                            ~ In o (pre ++ "[^/]*" ++ post)).
  { intros o Ho Hmid. apply not_In_app; [now apply plain_not_In|].
    apply not_In_app; [exact Hmid | now apply plain_not_In]. }
  assert (Hmid : forall o, In o ("{}," : str) -> ~ In o ("[^/]*" : str)).
  { intros o [<-|[<-|[<-|[]]]] H; cbn in H;
      repeat (destruct H as [H|H]; [discriminate H|]); exact H. }
  change (list_ascii_of_string "{") with ["{"%char].
  change (list_ascii_of_string "}") with ["}"%char].
  change (list_ascii_of_string ",") with [","%char].
  rewrite (@replace_absent "{" [] "(" (pre ++ "[^/]*" ++ post))
    by (apply Hkeep; [in_list | apply Hmid; in_list]).
  rewrite (@replace_absent "}" [] ")" (pre ++ "[^/]*" ++ post))
    by (apply Hkeep; [in_list | apply Hmid; in_list]).
  rewrite (@replace_absent "," [] "|" (pre ++ "[^/]*" ++ post))
    by (apply Hkeep; [in_list | apply Hmid; in_list]).
  reflexivity.
Qed.

Lemma plain_char_token (c : ascii) :
  plain_char c = true ->
  Ascii.eqb c "["%char = false
  /\ Frag.outside c = false
  /\ Frag.token_of c = Frag.TLit c.
Proof.
  intros H.
  assert (Hne : forall o, In o special_chars -> Ascii.eqb c o = false).
  { intros o Ho. apply Ascii.eqb_neq. now apply plain_char_neq. }
  split; [apply Hne; in_list|]. split.
  - unfold Frag.outside. cbn [list_ascii_of_string existsb].
    rewrite !Hne by in_list. reflexivity.
  - unfold Frag.token_of. rewrite !Hne by in_list. reflexivity.
Qed.

Lemma tokens_from_plain (pre s : str) :
  plain pre = true ->
  Frag.tokens_from 0 (pre ++ s)
  = option_map (app (map Frag.TLit pre)) (Frag.tokens_from 0 s).
Proof.
  induction pre as [|c pre IH]; intros H.
  - cbn [app map]. now destruct (Frag.tokens_from 0 s).
  - cbn [plain forallb] in H. apply andb_true_iff in H as [Hc Hpre].
    destruct (@plain_char_token c Hc) as (H1 & H2 & H3).
    cbn [app Frag.tokens_from map]. rewrite H1, H2, H3, (IH Hpre).
    now destruct (Frag.tokens_from 0 s).
Qed.

Lemma tokenize_single_star (pre post : str) :
  plain pre = true -> plain post = true ->
  Frag.tokenize (pre ++ "[^/]*" ++ post)
  = Some (map Frag.TLit pre
          ++ Frag.TNotSlash :: Frag.TStar :: map Frag.TLit post).
Proof.
  intros Hpre Hpost. unfold Frag.tokenize.
  rewrite (@tokens_from_plain pre _ Hpre).
  cbn [list_ascii_of_string app Frag.tokens_from Ascii.eqb Bool.eqb startswith
       andb Frag.outside existsb orb Frag.token_of].
  rewrite <- (app_nil_r post) at 1. rewrite (@tokens_from_plain post [] Hpost).
  cbn [Frag.tokens_from option_map]. now rewrite app_nil_r.
Qed.

Lemma parse_literals (pre : str) (toks : list Frag.token) (cur : Frag.frame)
    (stack : list Frag.frame) :
  Frag.parse (map Frag.TLit pre ++ toks) cur stack
  = Frag.parse toks
      {| Frag.branches := Frag.branches cur;
         Frag.items := rev (map Frag.Lit pre) ++ Frag.items cur |}
      stack.
Proof.
  revert cur; induction pre as [|c pre IH]; intros cur.
  - cbn [map app rev]. now destruct cur.
  - cbn [map app rev Frag.parse]. rewrite IH. unfold Frag.push.
    cbn [Frag.branches Frag.items]. now rewrite <- app_assoc.
Qed.

Lemma compile_single_star (pre post : str) :
  plain pre = true -> plain post = true ->
  Frag.compile (pre ++ "[^/]*" ++ post) = Frag.Parsed (star_between pre post).
Proof.
  intros Hpre Hpost. unfold Frag.compile.
  rewrite (@tokenize_single_star pre post Hpre Hpost), parse_literals.
  cbn [Frag.parse Frag.push Frag.branches Frag.items Frag.empty_frame app].
  rewrite <- (app_nil_r (map Frag.TLit post)), parse_literals.
  cbn [Frag.parse Frag.close Frag.branches Frag.items rev app
       Frag.alternation].
  unfold Frag.sequence, star_between. do 2 f_equal.
  rewrite rev_app_distr. cbn [rev]. rewrite rev_app_distr, !rev_involutive.
  cbn [rev app]. now rewrite <- app_assoc.
Qed.

(** *** What the compiled translation matches *)

Lemma matches_literals (s : str) (rs : list Frag.regex) (w : str) :
  Frag.matches Frag.ceq_exact
    (fold_right Frag.Cat Frag.Eps (map Frag.Lit s ++ rs)) w
  <-> exists w',
        w = s ++ w'
        /\ Frag.matches Frag.ceq_exact (fold_right Frag.Cat Frag.Eps rs) w'.
Proof.
  revert w; induction s as [|c s IH]; intros w; cbn [map app fold_right].
  - split; [intros H; now exists w | now intros (w' & -> & H)].
  - split.
    + intros H. inversion H as [ | | | | r1 r2 u v Hu Hv E1 E2 | | | | | ]; subst.
      inversion Hu as [ | a c' Hc | | | | | | | | ]; subst.
      apply Ascii.eqb_eq in Hc. subst c'.
      apply IH in Hv as (w' & -> & Hw'). now exists w'.
    + intros (w' & -> & Hw'). change (c :: s ++ w') with ([c] ++ s ++ w').
      constructor.
      * constructor. apply Ascii.eqb_refl.
      * apply IH. now exists w'.
Qed.

Lemma matches_eps (ceq : ascii -> ascii -> bool) (w : str) :
  Frag.matches ceq Frag.Eps w <-> w = [].
Proof. split; [now inversion 1 | intros ->; constructor]. Qed.

Lemma matches_star_notslash (ceq : ascii -> ascii -> bool) (w : str) :
  Frag.matches ceq (Frag.Star Frag.NotSlash) w <-> ~ In Frag.slash w.
Proof.
  split.
  - intros H. remember (Frag.Star Frag.NotSlash) as sr eqn:E.
    induction H as [ | | | | | | | | r u v Hu _ Hv IHv | ]; try discriminate E.
    + intros [].
    + injection E as ->. inversion Hu; subst. intros [Hin|Hin]; [congruence|].
      now apply IHv.
  - induction w as [|c w IH]; intros H; [constructor|].
    change (c :: w) with ([c] ++ w). constructor.
    + constructor. intros ->. apply H. now left.
    + apply IH. intros Hin. apply H. now right.
Qed.

Lemma matches_star_between (pre post w : str) :
  Frag.matches Frag.ceq_exact (star_between pre post) w
  <-> exists mid, w = pre ++ mid ++ post /\ ~ In Frag.slash mid.
Proof.
  unfold star_between. rewrite matches_literals. cbn [fold_right]. split.
  - intros (w' & -> & H).
    inversion H as [ | | | | r1 r2 u v Hu Hv E1 E2 | | | | | ]; subst.
    apply matches_star_notslash in Hu.
    rewrite <- (app_nil_r (map Frag.Lit post)) in Hv.
    apply matches_literals in Hv as (e & -> & He).
    apply matches_eps in He. subst e. exists u. now rewrite app_nil_r.
  - intros (mid & -> & Hmid). exists (mid ++ post). split; [reflexivity|].
    constructor; [now apply matches_star_notslash|].
    rewrite <- (app_nil_r (map Frag.Lit post)). apply matches_literals.
    exists []. split; [now rewrite app_nil_r | constructor].
Qed.

(** C2, as stated, fails.  The translation tells [*] from [**]: [a*b]
    becomes [a[^/]*b], which does not match across the separator of
    ["a/b"], while [a**b] becomes [a.[^/]*b], which does; on ["ab"] it is
    the other way round; and neither matches every sequence of characters
    (["a/x/b"]). *)
Lemma star_and_double_star_differ :
  glob_to_regex "a*b" = ("a[^/]*b" : str)
  /\ glob_to_regex "a**b" = ("a.[^/]*b" : str)
  /\ path_pattern_test Frag.re "a*b" "a/b" = Ok false
  /\ path_pattern_test Frag.re "a**b" "a/b" = Ok true
  /\ path_pattern_test Frag.re "a*b" "ab" = Ok true
  /\ path_pattern_test Frag.re "a**b" "ab" = Ok false
  /\ path_pattern_test Frag.re "a**b" "a/x/b" = Ok false.
Proof. repeat split; vm_compute; reflexivity. Qed.

(** C2, as the translation has it.  A single [*] between plain text (text
    with none of the characters [* { } , . ( ) | [ \ ^ $ ? +]) is
    translated to [[^/]*] and matches any sequence of characters other than
    the path separator: the pattern [pre*post] matches a path exactly when
    the path starts with [pre], then characters without [/], then [post].
    (For any [re] that agrees with the fragment.) *)
Theorem single_star_excludes_separator (re : re_module)
    (pre post file_path : str) :
  Frag.agrees re ->
  plain pre = true ->
  plain post = true ->
  glob_to_regex (pre ++ "*" ++ post) = pre ++ "[^/]*" ++ post
  /\ (path_pattern_test re (pre ++ "*" ++ post) file_path = Ok true
      <-> exists mid rest,
            file_path = pre ++ mid ++ post ++ rest
            /\ ~ In "/"%char mid).
Proof.
  intros Hre Hpre Hpost.
  pose proof (@glob_to_regex_single_star pre post Hpre Hpost) as Hg.
  split; [exact Hg|].
  assert (Hc : Frag.compile (glob_to_regex (pre ++ "*" ++ post))
               = Frag.Parsed (star_between pre post)).
  { rewrite Hg. now apply compile_single_star. }
  rewrite (@path_pattern_test_agrees re _ file_path _ Hre Hc). split.
  - intros [= H]. apply match_prefix_spec in H as (u & v & -> & Hu).
    apply matches_star_between in Hu as (mid & -> & Hmid).
    exists mid, v. split; [now rewrite <- !app_assoc | exact Hmid].
  - intros (mid & rest & -> & Hmid). f_equal. apply match_prefix_spec.
    exists (pre ++ mid ++ post), rest. split; [now rewrite <- !app_assoc|].
    apply matches_star_between. now exists mid.
Qed.

Lemma single_star_excludes_separator_witness :
  Frag.agrees Frag.re
  /\ plain "src/" = true
  /\ plain "-test" = true
  /\ glob_to_regex (("src/" : str) ++ "*" ++ ("-test" : str))
     = ("src/" : str) ++ "[^/]*" ++ ("-test" : str)
  /\ (path_pattern_test Frag.re (("src/" : str) ++ "*" ++ ("-test" : str))
        "src/app-test.py" = Ok true
      <-> exists mid rest,
            ("src/app-test.py" : str)
            = ("src/" : str) ++ mid ++ ("-test" : str) ++ rest
            /\ ~ In "/"%char mid).
Proof.
  split; [exact frag_agrees|].
  split; [vm_compute; reflexivity|].
  split; [vm_compute; reflexivity|].
  apply (@single_star_excludes_separator Frag.re "src/" "-test"
           "src/app-test.py" frag_agrees); vm_compute; reflexivity.
Defined.

(** ** The specification's examples *)

(** Keyword ["voip"], threshold 0.5: ["check voip quality"] scores 1 of 1
    and matches; ["check network"] scores 0 and does not. *)
Example voip_keyword_matches :
  prompt_skill_matched Frag.re "check voip quality"
    (skill ["voip" : str] [] [] None) (sample_meta 3) = Ok true
  /\ prompt_skill_matched Frag.re "check network"
       (skill ["voip" : str] [] [] None) (sample_meta 3) = Ok false.
Proof. split; vm_compute; reflexivity. Qed.

(** A skill without prompt triggers does not match by the prompt. *)
Example no_prompt_trigger_no_match :
  prompt_skill_matched Frag.re "anything"
    {| promptTriggers := None; fileTriggers := None; priority := None;
       activationMessage := None |} no_meta = Ok false.
Proof. vm_compute; reflexivity. Qed.

(** [**/*.test.*] matches ["src/app.test.ts"] and not ["src/app.ts"]. *)
Example test_glob_matches :
  glob_to_regex "**/*.test.*" = (".[^/]*/[^/]*.test.[^/]*" : str)
  /\ path_pattern_test Frag.re "**/*.test.*" "src/app.test.ts" = Ok true
  /\ path_pattern_test Frag.re "**/*.test.*" "src/app.ts" = Ok false.
Proof. repeat split; vm_compute; reflexivity. Qed.

(** Brace alternation, and a brace left open. *)
Example brace_glob :
  path_pattern_test Frag.re "src/{a,b}.py" "src/b.py" = Ok true
  /\ path_pattern_test Frag.re "src/{a,b}.py" "src/c.py" = Ok false
  /\ Frag.compile (glob_to_regex "{a,b") = Frag.Malformed
  /\ Frag.compile "(" = Frag.Malformed
  /\ path_pattern_test Frag.re "{a,b" "a" = Raise re_error
  /\ patterns_loop Frag.re ["{a,b" : str; "a" : str] "a" = Ok true.
Proof. repeat split; vm_compute; reflexivity. Qed.

(** The sample run: the skill found twice is listed once, with both
    reasons; the skill with the broken entries stays out. *)
Example sample_run :
  main Frag.re insertion_order sample_prompt sample_git_status sample_rules
  = Ok [("voip-tests" : str,
         "Prompt keywords/patterns matched + Modified files matched" : str);
        ("network" : str, "Prompt keywords/patterns matched" : str)].
Proof. vm_compute; reflexivity. Qed.

(** [str.replace] takes leftmost occurrences and does not rescan. *)
Example replace_examples :
  replace "**" ".*" "***" = (".**" : str)
  /\ replace "aa" "b" "aaaaa" = ("bba" : str)
  /\ replace "" "-" "ab" = ("-a-b-" : str)
  /\ lower "VoIP Check" = ("voip check" : str)
  /\ lower ["220"%char; "215"%char; "223"%char]
     = ["252"%char; "215"%char; "223"%char].
Proof. repeat split; vm_compute; reflexivity. Qed.

(** ** Further properties of the scorers *)

Lemma patterns_loop_true_iff (re : re_module) (path_patterns : list str)
    (file_path : str) :
  patterns_loop re path_patterns file_path = Ok true
  <-> exists pattern,
        In pattern path_patterns
        /\ path_pattern_test re pattern file_path = Ok true.
Proof.
  induction path_patterns as [|p ps IH]; cbn [patterns_loop].
  - split; [discriminate | intros (? & [] & _)].
  - destruct (path_pattern_test_cases re p file_path) as [H|[H|H]]; rewrite H.
    + split; [intros _; exists p; split; [now left | exact H] | reflexivity].
    + rewrite IH. split.
      * intros (q & Hq & Ht). exists q. split; [now right | exact Ht].
      * intros (q & [<-|Hq] & Ht); [congruence | now exists q].
    + rewrite IH. split.
      * intros (q & Hq & Ht). exists q. split; [now right | exact Ht].
      * intros (q & [<-|Hq] & Ht); [congruence | now exists q].
Qed.

Lemma file_skill_matched_iff (re : re_module) (modified_files : list str)
    (sc : SkillConfig) :
  file_skill_matched re modified_files sc = true
  <-> exists file_path pattern,
        In file_path modified_files
        /\ In pattern
             (get (pathPatterns (get (fileTriggers sc) no_file_triggers)) [])
        /\ path_pattern_test re pattern file_path = Ok true.
Proof.
  unfold file_skill_matched. rewrite existsb_exists. split.
  - intros (f & Hf & H).
    destruct (patterns_loop re _ f) as [[|]|] eqn:E; try discriminate H.
    apply patterns_loop_true_iff in E as (p & Hp & Ht). now exists f, p.
  - intros (f & p & Hf & Hp & Ht). exists f. split; [exact Hf|].
    assert (E : patterns_loop re
                  (get (pathPatterns (get (fileTriggers sc) no_file_triggers))
                     []) f = Ok true)
      by (apply patterns_loop_true_iff; now exists p).
    now rewrite E.
Qed.

(** X1.  For an [re] that raises nothing but [re.error], and the list of
    modified files that the answer of git came to (or none): the
    file-context scorer returns a set of names, and a skill is in it exactly
    when some modified file matches some path pattern of the skill; with no
    list of modified files, an empty list or no path pattern, no skill
    matches this way. *)
Theorem file_context_matches_some_pair (re : re_module)
    (git_status : option (list str)) (skill_rules : SkillRules) :
  exists matches,
    analyze_file_context re git_status skill_rules = Ok matches
    /\ (git_status = None \/ git_status = Some [] -> matches = [])
    /\ forall name,
         In name matches <->
         exists modified_files sc file_path pattern,
           git_status = Some modified_files
           /\ In (name, sc) (get (skills skill_rules) [])
           /\ In file_path modified_files
           /\ In pattern
                (get (pathPatterns (get (fileTriggers sc) no_file_triggers))
                   [])
           /\ path_pattern_test re pattern file_path = Ok true.
Proof.
  destruct (analyze_file_context_spec re git_status skill_rules)
    as (m & Hm & _ & Hin).
  assert (Hin' : forall name,
             In name m <->
             exists modified_files sc file_path pattern,
               git_status = Some modified_files
               /\ In (name, sc) (get (skills skill_rules) [])
               /\ In file_path modified_files
               /\ In pattern
                    (get (pathPatterns
                            (get (fileTriggers sc) no_file_triggers)) [])
               /\ path_pattern_test re pattern file_path = Ok true).
  { intros name. rewrite Hin. split.
    - intros (files & sc & Hg & Hsc & H).
      apply file_skill_matched_iff in H as (f & p & Hf & Hp & Ht).
      now exists files, sc, f, p.
    - intros (files & sc & f & p & Hg & Hsc & Hf & Hp & Ht).
      exists files, sc. split; [exact Hg|]. split; [exact Hsc|].
      apply file_skill_matched_iff. now exists f, p. }
  exists m. split; [exact Hm|]. split; [|exact Hin'].
  intros Hg. destruct m as [|name m]; [reflexivity|]. exfalso.
  destruct (proj1 (Hin' name) (or_introl eq_refl))
    as (files & sc & f & p & Hf & _ & Hfile & _).
  destruct Hg as [Hg|Hg]; rewrite Hg in Hf; [discriminate|].
  injection Hf as <-. destruct Hfile.
Qed.

Lemma reason_of_cases (name : str) (pm cm : pyset) :
  reason_of name pm cm
  = match set_mem name pm, set_mem name cm with
    | true, true =>
        "Prompt keywords/patterns matched + Modified files matched" : str
    | true, false => "Prompt keywords/patterns matched" : str
    | false, true => "Modified files matched" : str
    | false, false => []
    end.
Proof.
  unfold reason_of. now destruct (set_mem name pm), (set_mem name cm).
Qed.

(** X2.  Every entry of the result is a skill that matched by the prompt
    or by the modified files, and its reason says which: the prompt reason,
    the file reason, or both joined by [" + "]. *)
Theorem result_reasons (re : re_module) (set_iter : pyset -> list str)
    (prompt : str) (git_status : option (list str))
    (skill_rules : SkillRules) :
  iterates set_iter ->
  exists pm cm res,
    analyze_prompt re prompt skill_rules = Ok pm
    /\ analyze_file_context re git_status skill_rules = Ok cm
    /\ main re set_iter prompt git_status skill_rules = Ok res
    /\ forall name reason,
         In (name, reason) res ->
         (In name pm \/ In name cm)
         /\ reason
            = (if set_mem name pm
               then if set_mem name cm
                    then "Prompt keywords/patterns matched + Modified files matched"
                    else "Prompt keywords/patterns matched"
               else "Modified files matched" : str).
Proof.
  intros Hiter.
  destruct (activation_enabled skill_rules) eqn:Hen.
  - destruct (main_enabled re prompt git_status skill_rules Hiter Hen)
      as (pm & cm & Hpm & Hcm & Hmain).
    exists pm, cm. eexists. split; [exact Hpm|]. split; [exact Hcm|].
    split; [exact Hmain|]. intros name reason Hin.
    apply in_map_iff in Hin as (n & [= <- <-] & Hn).
    destruct (slice_to_firstn (max_skills_of skill_rules)
                (sort_by (rank_of (get (skills skill_rules) []))
                   (set_iter (set_union pm cm)))) as [k Hk].
    rewrite Hk in Hn. apply firstn_In in Hn.
    apply (Permutation_in _ (sort_by_perm _ _)) in Hn.
    apply (Permutation_in _ (Hiter _)) in Hn.
    apply set_union_In in Hn. split; [exact Hn|].
    rewrite reason_of_cases.
    destruct (set_mem n pm) eqn:Ep, (set_mem n cm) eqn:Ec; try reflexivity.
    exfalso. destruct Hn as [Hn|Hn]; apply set_mem_In in Hn; congruence.
  - destruct (all_matches_spec re prompt git_status skill_rules)
      as (pm & cm & Hpm & Hcm & _).
    exists pm, cm, []. split; [exact Hpm|]. split; [exact Hcm|].
    split; [now apply main_disabled | intros ? ? []].
Qed.

Lemma result_reasons_witness :
  iterates insertion_order
  /\ exists pm cm res,
       analyze_prompt Frag.re sample_prompt sample_rules = Ok pm
       /\ analyze_file_context Frag.re sample_git_status sample_rules = Ok cm
       /\ main Frag.re insertion_order sample_prompt sample_git_status
            sample_rules = Ok res
       /\ forall name reason,
            In (name, reason) res ->
            (In name pm \/ In name cm)
            /\ reason
               = (if set_mem name pm
                  then if set_mem name cm
                       then "Prompt keywords/patterns matched + Modified files matched"
                       else "Prompt keywords/patterns matched"
                  else "Modified files matched" : str).
Proof.
  split; [exact insertion_order_iterates|].
  exact (result_reasons Frag.re sample_prompt sample_git_status sample_rules
           insertion_order_iterates).
Defined.


(** ** What the cap keeps *)

Lemma sorted_app_le (A : Type) (key : A -> nat) (l1 l2 : list A) (x y : A) :
  StronglySorted (key_le key) (l1 ++ l2) ->
  In x l1 -> In y l2 -> key x <= key y.
Proof.
  intros Hs Hx Hy. apply in_split in Hx as (a & b & ->).
  apply in_split in Hy as (c & d & ->).
  apply (@sorted_precedes A key x y ((a ++ x :: b) ++ c ++ y :: d) Hs).
  exists a, (b ++ c), d. now rewrite <- !app_assoc.
Qed.

(** X3.  The result lists only skills that matched and that the
    configuration defines. *)
Theorem result_lists_matched_configured_skills (re : re_module)
    (set_iter : pyset -> list str) (prompt : str)
    (git_status : option (list str)) (skill_rules : SkillRules) :
  iterates set_iter ->
  exists am res,
    all_matches re prompt git_status skill_rules = Ok am
    /\ main re set_iter prompt git_status skill_rules = Ok res
    /\ forall name,
         In name (map fst res) ->
         In name am
         /\ exists sc, In (name, sc) (get (skills skill_rules) []).
Proof.
  intros Hiter.
  destruct (all_matches_spec re prompt git_status skill_rules)
    as (pm & cm & _ & _ & Ham & _ & Hkeys).
  destruct (main_names re prompt git_status skill_rules Hiter)
    as (am & res & k & Ham' & _ & Hres & Hnames).
  rewrite Ham in Ham'. injection Ham' as <-.
  exists (set_union pm cm), res. split; [exact Ham|]. split; [exact Hres|].
  intros name Hin. destruct Hnames as [Hnames| ->]; [|destruct Hin].
  rewrite Hnames in Hin. apply firstn_In in Hin.
  apply (Permutation_in _ (sort_by_perm _ _)) in Hin.
  apply (Permutation_in _ (Hiter _)) in Hin.
  split; [exact Hin | now apply Hkeys].
Qed.

Lemma result_lists_matched_configured_skills_witness :
  iterates insertion_order
  /\ exists am res,
       all_matches Frag.re sample_prompt sample_git_status sample_rules = Ok am
       /\ main Frag.re insertion_order sample_prompt sample_git_status
            sample_rules = Ok res
       /\ forall name,
            In name (map fst res) ->
            In name am
            /\ exists sc, In (name, sc) (get (skills sample_rules) []).
Proof.
  split; [exact insertion_order_iterates|].
  exact (result_lists_matched_configured_skills Frag.re sample_prompt
           sample_git_status sample_rules insertion_order_iterates).
Defined.

(** X4.  The cap drops from the low end: once [main] is past its early
    returns, a matched skill that is not in the result ranks no better than
    any skill that is. *)
Theorem cap_keeps_best_ranked (re : re_module)
    (set_iter : pyset -> list str) (prompt : str)
    (git_status : option (list str)) (skill_rules : SkillRules) :
  iterates set_iter ->
  activation_enabled skill_rules = true ->
  exists am res,
    all_matches re prompt git_status skill_rules = Ok am
    /\ main re set_iter prompt git_status skill_rules = Ok res
    /\ forall kept dropped,
         In kept (map fst res) ->
         In dropped am ->
         ~ In dropped (map fst res) ->
         rank_of (get (skills skill_rules) []) kept
         <= rank_of (get (skills skill_rules) []) dropped.
Proof.
  intros Hiter Hen.
  destruct (main_enabled re prompt git_status skill_rules Hiter Hen)
    as (pm & cm & Hpm & Hcm & Hmain).
  exists (set_union pm cm). eexists.
  split; [unfold all_matches; now rewrite Hpm, Hcm|].
  split; [exact Hmain|].
  intros kept dropped. rewrite map_map. cbn [fst]. rewrite map_id.
  set (sorted := sort_by (rank_of (get (skills skill_rules) []))
                   (set_iter (set_union pm cm))).
  destruct (slice_to_firstn (max_skills_of skill_rules) sorted) as [k ->].
  intros Hkept Hdropped Hout.
  assert (Hd : In dropped sorted).
  { eapply Permutation_in; [symmetry; apply sort_by_perm|].
    eapply Permutation_in; [symmetry; apply Hiter | exact Hdropped]. }
  rewrite <- (firstn_skipn k sorted) in Hd.
  apply in_app_or in Hd as [Hd|Hd]; [contradiction|].
  apply (@sorted_app_le _ (rank_of (get (skills skill_rules) []))
           (firstn k sorted) (skipn k sorted)); try assumption.
  rewrite firstn_skipn. apply sort_by_sorted.
Qed.

Lemma cap_keeps_best_ranked_witness :
  iterates insertion_order
  /\ activation_enabled (with_max 1 sample_rules) = true
  /\ exists am res,
       all_matches Frag.re sample_prompt sample_git_status
         (with_max 1 sample_rules) = Ok am
       /\ main Frag.re insertion_order sample_prompt sample_git_status
            (with_max 1 sample_rules) = Ok res
       /\ forall kept dropped,
            In kept (map fst res) ->
            In dropped am ->
            ~ In dropped (map fst res) ->
            rank_of (get (skills (with_max 1 sample_rules)) []) kept
            <= rank_of (get (skills (with_max 1 sample_rules)) []) dropped.
Proof.
  split; [exact insertion_order_iterates|].
  split; [reflexivity|].
  exact (cap_keeps_best_ranked Frag.re sample_prompt sample_git_status
           (with_max 1 sample_rules) insertion_order_iterates eq_refl).
Defined.

Lemma analyze_prompt_loop_threshold (re : re_module) (prompt : str)
    (items : list (str * SkillConfig)) (meta1 meta2 : Meta) (acc : pyset) :
  confidenceThreshold meta1 = confidenceThreshold meta2 ->
  analyze_prompt_loop re prompt items meta1 acc
  = analyze_prompt_loop re prompt items meta2 acc.
Proof.
  intros H. revert acc; induction items as [|[n sc] items IH]; intros acc;
    [reflexivity|].
  cbn [analyze_prompt_loop].
  replace (prompt_skill_matched re prompt sc meta1)
    with (prompt_skill_matched re prompt sc meta2)
    by (unfold prompt_skill_matched; now rewrite H).
  destruct (prompt_skill_matched re prompt sc meta2); [|reflexivity].
  cbn [bind]. apply IH.
Qed.

(** X5.  Raising the cap only extends the result: with a cap [m] the result
    is the first [m] entries of the result with any larger cap. *)
Theorem smaller_cap_gives_prefix (re : re_module)
    (set_iter : pyset -> list str) (prompt : str)
    (git_status : option (list str)) (skill_rules : SkillRules) (m m' : Z) :
  iterates set_iter ->
  (0 <= m <= m')%Z ->
  exists res res',
    main re set_iter prompt git_status (with_max m skill_rules) = Ok res
    /\ main re set_iter prompt git_status (with_max m' skill_rules) = Ok res'
    /\ res = firstn (Z.to_nat m) res'.
Proof.
  intros Hiter Hm.
  assert (Hen : forall k, activation_enabled (with_max k skill_rules)
                          = activation_enabled skill_rules) by reflexivity.
  assert (Hpm : forall k, analyze_prompt re prompt (with_max k skill_rules)
                          = analyze_prompt re prompt skill_rules).
  { intros k. unfold analyze_prompt. now apply analyze_prompt_loop_threshold. }
  assert (Hcm : forall k,
             analyze_file_context re git_status (with_max k skill_rules)
             = analyze_file_context re git_status skill_rules) by reflexivity.
  destruct (activation_enabled skill_rules) eqn:E.
  - destruct (main_enabled re prompt git_status (with_max m skill_rules)
                Hiter (Hen m)) as (pm & cm & H1 & H2 & Hres).
    destruct (main_enabled re prompt git_status (with_max m' skill_rules)
                Hiter (Hen m')) as (pm' & cm' & H1' & H2' & Hres').
    rewrite Hpm in H1, H1'. rewrite Hcm in H2, H2'.
    rewrite H1 in H1'. rewrite H2 in H2'.
    injection H1' as <-. injection H2' as <-.
    eexists. eexists. split; [exact Hres|]. split; [exact Hres'|].
    rewrite firstn_map. f_equal.
    change (max_skills_of (with_max m skill_rules)) with m.
    change (max_skills_of (with_max m' skill_rules)) with m'.
    change (skills (with_max m' skill_rules)) with (skills skill_rules).
    change (skills (with_max m skill_rules)) with (skills skill_rules).
    unfold slice_to.
    destruct (Z.leb_spec 0 m); [|lia]. destruct (Z.leb_spec 0 m'); [|lia].
    rewrite firstn_firstn. f_equal. lia.
  - exists [], []. split; [apply main_disabled; now rewrite Hen|].
    split; [apply main_disabled; now rewrite Hen|].
    now rewrite firstn_nil.
Qed.

Lemma smaller_cap_gives_prefix_witness :
  iterates insertion_order
  /\ (0 <= 1 <= 2)%Z
  /\ exists res res',
       main Frag.re insertion_order sample_prompt sample_git_status
         (with_max 1 sample_rules) = Ok res
       /\ main Frag.re insertion_order sample_prompt sample_git_status
            (with_max 2 sample_rules) = Ok res'
       /\ res = firstn (Z.to_nat 1) res'.
Proof.
  split; [exact insertion_order_iterates|].
  split; [lia|].
  apply (smaller_cap_gives_prefix Frag.re sample_prompt sample_git_status
           sample_rules insertion_order_iterates).
  lia.
Defined.

(** ** The score and its bound *)

Lemma filter_length_all (A : Type) (f : A -> bool) (l : list A) :
  length (filter f l) <= length l
  /\ (length (filter f l) = length l <-> forall x, In x l -> f x = true).
Proof.
  induction l as [|a l [IHle IHeq]]; cbn [filter length In].
  - split; [lia|]. split; [intros _ x [] | reflexivity].
  - destruct (f a) eqn:E; cbn [length]; split; try lia.
    + split.
      * intros H x [<-|Hx]; [exact E | apply IHeq; [lia | exact Hx]].
      * intros H. f_equal. apply IHeq. intros x Hx. apply H. now right.
    + split; [lia|]. intros H. rewrite (H a (or_introl eq_refl)) in E.
      discriminate E.
Qed.

(** X6.  The prompt score never exceeds [max_score], and it reaches
    [max_score] exactly when every keyword occurs in the prompt and every
    intent pattern is found. *)
Theorem score_is_at_most_max_score (re : re_module) (prompt : str)
    (kws pats : list str) :
  exists score,
    score_patterns re pats prompt (score_keywords kws (lower prompt) 0)
    = Ok score
    /\ score <= length kws + length pats * 2
    /\ (score = length kws + length pats * 2
        <-> (forall k, In k kws -> contains (lower k) (lower prompt) = true)
            /\ (forall p, In p pats ->
                          re_search_ignorecase re p prompt = ReMatch)).
Proof.
  rewrite score_patterns_count, score_keywords_count. eexists.
  split; [reflexivity|].
  destruct (filter_length_all (fun k => contains (lower k) (lower prompt)) kws)
    as [Hk Hkeq].
  destruct (filter_length_all (pattern_found re prompt) pats) as [Hp Hpeq].
  assert (Hfound : forall p, pattern_found re prompt p = true
                             <-> re_search_ignorecase re p prompt = ReMatch).
  { intros p. unfold pattern_found.
    destruct (re_search_ignorecase re p prompt); split; congruence. }
  split; [lia|]. split.
  - intros H. split.
    + apply Hkeq. lia.
    + intros p Hin. apply Hfound. revert p Hin. apply Hpeq. lia.
  - intros [H1 H2]. apply Hkeq in H1.
    assert (H3 : length (filter (pattern_found re prompt) pats) = length pats)
      by (apply Hpeq; intros p Hin; now apply Hfound, H2).
    lia.
Qed.

(** ** The modified files as a set *)

Lemma existsb_same_elements (A : Type) (f : A -> bool) (l l' : list A) :
  (forall x, In x l <-> In x l') -> existsb f l = existsb f l'.
Proof.
  intros H. destruct (existsb f l) eqn:E.
  - symmetry. apply existsb_exists. apply existsb_exists in E as (x & Hx & Hf).
    exists x. split; [now apply H | exact Hf].
  - destruct (existsb f l') eqn:E'; [|reflexivity].
    apply existsb_exists in E' as (x & Hx & Hf).
    assert (E2 : existsb f l = true)
      by (apply existsb_exists; exists x; split; [now apply H | exact Hf]).
    congruence.
Qed.

(** X7.  Only which files are modified matters, not the order of git's
    lines nor a file listed twice: two lists with the same elements give
    the same file-context matches and the same result. *)
Theorem modified_files_count_as_a_set (re : re_module)
    (set_iter : pyset -> list str) (prompt : str)
    (files files' : list str) (skill_rules : SkillRules) :
  (forall f, In f files <-> In f files') ->
  analyze_file_context re (Some files) skill_rules
  = analyze_file_context re (Some files') skill_rules
  /\ main re set_iter prompt (Some files) skill_rules
     = main re set_iter prompt (Some files') skill_rules.
Proof.
  intros H.
  assert (Hc : analyze_file_context re (Some files) skill_rules
               = analyze_file_context re (Some files') skill_rules).
  { unfold analyze_file_context. generalize (@nil str) as acc.
    induction (get (skills skill_rules) []) as [|[n sc] items IH];
      intros acc; [reflexivity|].
    cbn [analyze_file_context_loop]. rewrite !files_loop_spec.
    rewrite (@existsb_same_elements _ _ files files' H). cbn [bind]. apply IH. }
  split; [exact Hc|]. unfold main. now rewrite Hc.
Qed.

Lemma modified_files_count_as_a_set_witness :
  (forall f,
     In f ["README.md" : str; "src/app.test.ts" : str; "README.md" : str]
     <-> In f ["src/app.test.ts" : str; "README.md" : str])
  /\ analyze_file_context Frag.re
       (Some ["README.md" : str; "src/app.test.ts" : str; "README.md" : str])
       sample_rules
     = analyze_file_context Frag.re
         (Some ["src/app.test.ts" : str; "README.md" : str]) sample_rules
  /\ main Frag.re insertion_order sample_prompt
       (Some ["README.md" : str; "src/app.test.ts" : str; "README.md" : str])
       sample_rules
     = main Frag.re insertion_order sample_prompt
         (Some ["src/app.test.ts" : str; "README.md" : str]) sample_rules.
Proof.
  assert (H : forall f,
             In f ["README.md" : str; "src/app.test.ts" : str;
                   "README.md" : str]
             <-> In f ["src/app.test.ts" : str; "README.md" : str])
    by (intros f; cbn [In]; tauto).
  split; [exact H|].
  exact (modified_files_count_as_a_set Frag.re insertion_order sample_prompt
           _ _ sample_rules H).
Defined.

(** ** Literal globs and brace groups *)

Unset Implicit Arguments.

Lemma replace_char (o n : ascii) (s : str) :
  replace [o] [n] s = map (subst_char o n) s.
Proof.
  unfold replace. induction s as [|c s IH]; [reflexivity|].
  cbn [replace_from startswith map length Nat.sub]. unfold subst_char at 1.
  rewrite Ascii.eqb_sym.
  destruct (Ascii.eqb c o); cbn [andb app]; now rewrite IH.
Qed.

Lemma subst_plain (o n : ascii) (s : str) :
  plain s = true -> In o special_chars -> map (subst_char o n) s = s.
Proof.
  intros Hs Ho. induction s as [|c s IH]; [reflexivity|].
  cbn [plain forallb] in Hs. apply andb_true_iff in Hs as [Hc Hs].
  cbn [map]. rewrite (IH Hs). unfold subst_char.
  destruct (Ascii.eqb_spec c o) as [->|_]; [|reflexivity].
  exfalso. now apply (@plain_char_neq o o Hc Ho).
Qed.

Lemma plain_list_not_In (o : ascii) (parts : list str) :
  forallb plain parts = true -> In o special_chars ->
  forall p, In p parts -> ~ In o p.
Proof.
  intros H Ho p Hp. rewrite forallb_forall in H.
  apply plain_not_In; [apply H; exact Hp | exact Ho].
Qed.

Lemma not_In_join (o : ascii) (sep : str) (parts : list str) :
  ~ In o sep -> (forall p, In p parts -> ~ In o p) ->
  ~ In o (join sep parts).
Proof.
  intros Hsep. induction parts as [|p [|q parts] IH]; intros H.
  - intros [].
  - apply H. now left.
  - change (join sep (p :: q :: parts))
      with (p ++ sep ++ join sep (q :: parts)).
    apply not_In_app; [apply H; now left|].
    apply not_In_app; [exact Hsep|].
    apply IH. intros r Hr. apply H. now right.
Qed.

(** Without a [*] the translation only rewrites braces and commas. *)
Lemma glob_to_regex_no_star (s : str) :
  ~ In "*"%char s -> glob_to_regex s = brace_subst s.
Proof.
  intros H. unfold glob_to_regex, brace_subst.
  change (list_ascii_of_string "**") with ["*"%char; "*"%char].
  change (list_ascii_of_string "*") with ["*"%char].
  rewrite (replace_absent "*"%char ["*"%char] ".*" s H).
  rewrite (replace_absent "*"%char [] "[^/]*" s H).
  change (list_ascii_of_string "{") with ["{"%char].
  change (list_ascii_of_string "}") with ["}"%char].
  change (list_ascii_of_string ",") with [","%char].
  change (list_ascii_of_string "(") with ["("%char].
  change (list_ascii_of_string ")") with [")"%char].
  change (list_ascii_of_string "|") with ["|"%char].
  rewrite (replace_char "{" "(" s).
  rewrite (replace_char "}" ")" (map (subst_char "{" "(") s)).
  apply replace_char.
Qed.

Lemma brace_subst_app (a b : str) :
  brace_subst (a ++ b) = brace_subst a ++ brace_subst b.
Proof. unfold brace_subst. now rewrite !map_app. Qed.

Lemma brace_subst_plain (s : str) : plain s = true -> brace_subst s = s.
Proof.
  intros H. unfold brace_subst.
  rewrite (subst_plain "{" "(" s H) by in_list.
  rewrite (subst_plain "}" ")" s H) by in_list.
  apply subst_plain; [exact H | in_list].
Qed.

Lemma brace_subst_join (alts : list str) :
  forallb plain alts = true ->
  brace_subst (join "," alts) = join "|" alts.
Proof.
  induction alts as [|a [|b alts] IH]; intros H.
  - reflexivity.
  - cbn [forallb] in H. apply andb_true_iff in H as [Ha _].
    now apply brace_subst_plain.
  - cbn [forallb] in H. apply andb_true_iff in H as [Ha H].
    change (join "," (a :: b :: alts))
      with (a ++ "," ++ join "," (b :: alts)).
    change (join "|" (a :: b :: alts))
      with (a ++ "|" ++ join "|" (b :: alts)).
    rewrite !brace_subst_app, (brace_subst_plain a Ha), (IH H).
    reflexivity.
Qed.

(** The translation of a brace group among literal text. *)
Lemma glob_to_regex_group (pre post : str) (alts : list str) :
  plain pre = true -> plain post = true -> forallb plain alts = true ->
  glob_to_regex (pre ++ "{" ++ join "," alts ++ "}" ++ post)
  = pre ++ "(" ++ join "|" alts ++ ")" ++ post.
Proof.
  intros Hpre Hpost Halts.
  rewrite glob_to_regex_no_star.
  - rewrite !brace_subst_app, (brace_subst_plain pre Hpre),
      (brace_subst_plain post Hpost), (brace_subst_join alts Halts).
    reflexivity.
  - apply not_In_app; [apply plain_not_In; [exact Hpre | in_list]|].
    apply not_In_app; [intros [H|[]]; discriminate H|].
    apply not_In_app.
    + apply not_In_join; [intros [H|[]]; discriminate H|].
      apply plain_list_not_In; [exact Halts | in_list].
    + apply not_In_app; [intros [H|[]]; discriminate H|].
      apply plain_not_In; [exact Hpost | in_list].
Qed.

Lemma tokens_from_open (s : str) :
  Frag.tokens_from 0 ("("%char :: s)
  = option_map (cons Frag.TOpen) (Frag.tokens_from 0 s).
Proof. reflexivity. Qed.

Lemma tokens_from_close (s : str) :
  Frag.tokens_from 0 (")"%char :: s)
  = option_map (cons Frag.TClose) (Frag.tokens_from 0 s).
Proof. reflexivity. Qed.

Lemma tokens_from_bar (s : str) :
  Frag.tokens_from 0 ("|"%char :: s)
  = option_map (cons Frag.TBar) (Frag.tokens_from 0 s).
Proof. reflexivity. Qed.

Lemma tokens_from_plain_end (s : str) :
  plain s = true -> Frag.tokens_from 0 s = Some (map Frag.TLit s).
Proof.
  intros H. rewrite <- (app_nil_r s) at 1.
  rewrite (@tokens_from_plain s [] H). cbn [Frag.tokens_from option_map].
  now rewrite app_nil_r.
Qed.

Lemma tokens_from_alts (alts : list str) (s : str) :
  forallb plain alts = true ->
  Frag.tokens_from 0 (join "|" alts ++ s)
  = option_map (app (alt_tokens alts)) (Frag.tokens_from 0 s).
Proof.
  induction alts as [|a [|b alts] IH]; intros H.
  - cbn [join alt_tokens app]. now destruct (Frag.tokens_from 0 s).
  - cbn [forallb] in H. apply andb_true_iff in H as [Ha _].
    cbn [join alt_tokens]. exact (@tokens_from_plain a s Ha).
  - cbn [forallb] in H. apply andb_true_iff in H as [Ha H].
    change (join "|" (a :: b :: alts))
      with (a ++ "|"%char :: join "|" (b :: alts)).
    change (alt_tokens (a :: b :: alts))
      with (map Frag.TLit a ++ Frag.TBar :: alt_tokens (b :: alts)).
    rewrite <- app_assoc. cbn [app].
    rewrite (@tokens_from_plain a _ Ha), tokens_from_bar, (IH H).
    destruct (Frag.tokens_from 0 s); cbn [option_map]; [|reflexivity].
    now rewrite <- app_assoc.
Qed.

Lemma tokenize_group (pre post : str) (alts : list str) :
  plain pre = true -> plain post = true -> forallb plain alts = true ->
  Frag.tokenize (pre ++ "(" ++ join "|" alts ++ ")" ++ post)
  = Some (map Frag.TLit pre
          ++ Frag.TOpen :: alt_tokens alts
          ++ Frag.TClose :: map Frag.TLit post).
Proof.
  intros Hpre Hpost Halts. unfold Frag.tokenize.
  rewrite (@tokens_from_plain pre _ Hpre).
  change (list_ascii_of_string "(" ++ join "|" alts ++ ")" ++ post)
    with ("("%char :: join "|" alts ++ ")"%char :: post).
  rewrite tokens_from_open, (tokens_from_alts alts _ Halts),
    tokens_from_close, (tokens_from_plain_end post Hpost).
  reflexivity.
Qed.

Lemma sequence_literals (s : str) :
  Frag.sequence (rev (map Frag.Lit s)) = lits_regex s.
Proof. unfold Frag.sequence, lits_regex. now rewrite rev_involutive. Qed.

Lemma close_frame (brs items_ : list Frag.regex) :
  Frag.close {| Frag.branches := brs; Frag.items := items_ |}
  = close_alts (rev brs ++ [Frag.sequence items_]).
Proof. reflexivity. Qed.

(** The parser on the branches of a group and its closing parenthesis. *)
Lemma parse_alternatives (alts : list str) (a : str)
    (toks : list Frag.token) (brs : list Frag.regex) (parent : Frag.frame)
    (stack : list Frag.frame) :
  Frag.parse (alt_tokens (a :: alts) ++ Frag.TClose :: toks)
    {| Frag.branches := brs; Frag.items := [] |} (parent :: stack)
  = Frag.parse toks
      (Frag.push
         (Frag.Group (close_alts (rev brs ++ map lits_regex (a :: alts))))
         parent)
      stack.
Proof.
  revert a brs; induction alts as [|b alts IH]; intros a brs.
  - cbn [alt_tokens]. rewrite parse_literals.
    cbn [Frag.parse Frag.branches Frag.items]. rewrite close_frame.
    now rewrite app_nil_r, sequence_literals.
  - change (alt_tokens (a :: b :: alts))
      with (map Frag.TLit a ++ Frag.TBar :: alt_tokens (b :: alts)).
    rewrite <- app_assoc, parse_literals.
    cbn [app Frag.parse Frag.branches Frag.items].
    rewrite app_nil_r, sequence_literals, IH.
    cbn [rev map]. now rewrite <- app_assoc.
Qed.

Lemma compile_group (pre post : str) (a : str) (alts : list str) :
  plain pre = true -> plain post = true ->
  forallb plain (a :: alts) = true ->
  Frag.compile (pre ++ "(" ++ join "|" (a :: alts) ++ ")" ++ post)
  = Frag.Parsed (group_between pre (a :: alts) post).
Proof.
  intros Hpre Hpost Halts. unfold Frag.compile.
  rewrite (tokenize_group pre post (a :: alts) Hpre Hpost Halts).
  rewrite parse_literals.
  cbn [app Frag.parse Frag.branches Frag.items]. unfold Frag.empty_frame.
  rewrite parse_alternatives.
  rewrite <- (app_nil_r (map Frag.TLit post)), parse_literals.
  cbn [Frag.parse Frag.push Frag.branches Frag.items rev app].
  rewrite close_frame. cbn [rev app close_alts Frag.alternation].
  unfold Frag.sequence, group_between. do 2 f_equal.
  rewrite (app_nil_r (rev (map Frag.Lit pre))).
  rewrite (rev_app_distr (rev (map Frag.Lit post))).
  cbn [rev]. rewrite !rev_involutive, <- app_assoc. reflexivity.
Qed.

Lemma compile_literal (s : str) :
  plain s = true -> Frag.compile s = Frag.Parsed (lits_regex s).
Proof.
  intros H. unfold Frag.compile, Frag.tokenize.
  rewrite (tokens_from_plain_end s H).
  rewrite <- (app_nil_r (map Frag.TLit s)), parse_literals.
  cbn [Frag.parse Frag.empty_frame Frag.branches Frag.items].
  rewrite close_frame. cbn [rev app close_alts Frag.alternation].
  now rewrite app_nil_r, sequence_literals.
Qed.

Lemma startswith_iff (p s : str) :
  startswith p s = true <-> exists t, s = p ++ t.
Proof.
  split; [apply startswith_inv | intros [t ->]; apply startswith_app].
Qed.

Lemma matches_lits_regex (s w : str) :
  Frag.matches Frag.ceq_exact (lits_regex s) w <-> w = s.
Proof.
  unfold lits_regex. rewrite <- (app_nil_r (map Frag.Lit s)).
  rewrite matches_literals. cbn [fold_right]. split.
  - intros (e & -> & He). apply matches_eps in He. subst e.
    apply app_nil_r.
  - intros ->. exists []. split; [now rewrite app_nil_r | constructor].
Qed.

Lemma matches_alternation (ceq : ascii -> ascii -> bool)
    (first : Frag.regex) (others : list Frag.regex) (w : str) :
  Frag.matches ceq (Frag.alternation first others) w
  <-> Frag.matches ceq first w
      \/ exists r, In r others /\ Frag.matches ceq r w.
Proof.
  revert first; induction others as [|r others IH]; intros first;
    cbn [Frag.alternation].
  - split; [now left | intros [H|(? & [] & _)]; exact H].
  - split.
    + intros H. inversion H; subst; [now left|]. right.
      match goal with Hm : Frag.matches _ (Frag.alternation _ _) _ |- _ =>
        apply IH in Hm as [Hm|(r' & Hr' & Hm)] end.
      * exists r. split; [now left | assumption].
      * exists r'. split; [now right | assumption].
    + intros [H|(r' & [<-|Hr'] & H)].
      * now apply Frag.MAltL.
      * apply Frag.MAltR, IH. now left.
      * apply Frag.MAltR, IH. right. now exists r'.
Qed.

Lemma matches_close_alts (a : str) (alts : list str) (w : str) :
  Frag.matches Frag.ceq_exact (close_alts (map lits_regex (a :: alts))) w
  <-> In w (a :: alts).
Proof.
  cbn [map close_alts]. rewrite matches_alternation, matches_lits_regex.
  cbn [In]. split.
  - intros [->|(r & Hr & Hm)]; [now left|]. right.
    apply in_map_iff in Hr as (b & <- & Hb).
    apply matches_lits_regex in Hm. now subst.
  - intros [<-|Hw]; [now left|]. right. exists (lits_regex w).
    split; [now apply in_map | now apply matches_lits_regex].
Qed.

Lemma matches_group_between (pre post : str) (a : str) (alts : list str)
    (w : str) :
  Frag.matches Frag.ceq_exact (group_between pre (a :: alts) post) w
  <-> exists alt, In alt (a :: alts) /\ w = pre ++ alt ++ post.
Proof.
  unfold group_between. rewrite matches_literals. cbn [fold_right]. split.
  - intros (w' & -> & H).
    inversion H as [ | | | | r1 r2 u v Hu Hv E1 E2 | | | | | ]; subst.
    inversion Hu as [ | | | | | | | | | r u' Hg ]; subst.
    apply matches_close_alts in Hg.
    apply (proj1 (matches_lits_regex post v)) in Hv. subst v.
    now exists u.
  - intros (alt & Halt & ->). exists (alt ++ post). split; [reflexivity|].
    constructor.
    + constructor. now apply matches_close_alts.
    + now apply matches_lits_regex.
Qed.

Lemma match_prefix_startswith (r : Frag.regex) (path : str)
    (starts : list str) :
  (forall w, Frag.matches Frag.ceq_exact r w <-> In w starts) ->
  Frag.match_prefix Frag.ceq_exact r path
  = existsb (fun s => startswith s path) starts.
Proof.
  intros H. apply eq_iff_eq_true.
  rewrite match_prefix_spec, existsb_exists. split.
  - intros (u & v & -> & Hu). exists u.
    split; [now apply H | apply startswith_app].
  - intros (s & Hs & Hst). apply startswith_inv in Hst as [t ->].
    exists s, t. split; [reflexivity | now apply H].
Qed.

(** X8.  A glob of plain characters (none of [* { } , . ( ) | [ \ ^ $ ? +])
    is translated to itself and matches exactly the paths that start with
    it. *)
Theorem literal_glob_matches_by_prefix (re : re_module) (pattern path : str) :
  Frag.agrees re ->
  plain pattern = true ->
  glob_to_regex pattern = pattern
  /\ path_pattern_test re pattern path = Ok (startswith pattern path).
Proof.
  intros Hre Hp.
  assert (Hg : glob_to_regex pattern = pattern).
  { rewrite glob_to_regex_no_star
      by (apply plain_not_In; [exact Hp | in_list]).
    now apply brace_subst_plain. }
  split; [exact Hg|].
  assert (Hc : Frag.compile (glob_to_regex pattern)
               = Frag.Parsed (lits_regex pattern))
    by (rewrite Hg; now apply compile_literal).
  rewrite (@path_pattern_test_agrees re pattern path _ Hre Hc). f_equal.
  rewrite (match_prefix_startswith (lits_regex pattern) path [pattern]).
  - cbn [existsb]. apply orb_false_r.
  - intros w. rewrite matches_lits_regex. cbn [In].
    split; [now left | intros [H|[]]; now symmetry].
Qed.

Lemma literal_glob_matches_by_prefix_witness :
  Frag.agrees Frag.re
  /\ plain "docs/api" = true
  /\ glob_to_regex "docs/api" = ("docs/api" : str)
  /\ path_pattern_test Frag.re "docs/api" "docs/api-v2/index.md"
     = Ok (startswith "docs/api" "docs/api-v2/index.md").
Proof.
  split; [exact frag_agrees|]. split; [reflexivity|].
  apply (literal_glob_matches_by_prefix Frag.re "docs/api"
           "docs/api-v2/index.md" frag_agrees).
  reflexivity.
Defined.

(** X9.  A brace group among plain text, [pre{a1,...,an}post], is
    translated to [pre(a1|...|an)post] and matches exactly the paths that
    start with [pre ai post] for one of the alternatives. *)
Theorem brace_group_matches_some_alternative (re : re_module)
    (pre post : str) (alts : list str) (path : str) :
  Frag.agrees re ->
  plain pre = true ->
  plain post = true ->
  forallb plain alts = true ->
  alts <> [] ->
  glob_to_regex (pre ++ "{" ++ join "," alts ++ "}" ++ post)
  = pre ++ "(" ++ join "|" alts ++ ")" ++ post
  /\ path_pattern_test re (pre ++ "{" ++ join "," alts ++ "}" ++ post) path
     = Ok (existsb (fun alt => startswith (pre ++ alt ++ post) path) alts).
Proof.
  intros Hre Hpre Hpost Halts Hne.
  split; [exact (glob_to_regex_group pre post alts Hpre Hpost Halts)|].
  destruct alts as [|a alts]; [contradiction|].
  assert (Hc : Frag.compile
                 (glob_to_regex
                    (pre ++ "{" ++ join "," (a :: alts) ++ "}" ++ post))
               = Frag.Parsed (group_between pre (a :: alts) post)).
  { rewrite (glob_to_regex_group pre post (a :: alts) Hpre Hpost Halts).
    now apply compile_group. }
  rewrite (@path_pattern_test_agrees re _ path _ Hre Hc). f_equal.
  rewrite (match_prefix_startswith _ path
             (map (fun alt => pre ++ alt ++ post) (a :: alts))).
  - generalize (a :: alts) as l. induction l as [|b l IH]; [reflexivity|].
    cbn [map existsb]. now rewrite IH.
  - intros w. rewrite matches_group_between, in_map_iff. split.
    + intros (alt & Halt & ->). now exists alt.
    + intros (alt & <- & Halt). now exists alt.
Qed.

Lemma brace_group_matches_some_alternative_witness :
  Frag.agrees Frag.re
  /\ plain "src/" = true
  /\ plain "-spec" = true
  /\ forallb plain ["unit" : str; "e2e" : str; "api" : str] = true
  /\ ["unit" : str; "e2e" : str; "api" : str] <> []
  /\ glob_to_regex
       (("src/" : str) ++ "{"
        ++ join "," ["unit" : str; "e2e" : str; "api" : str] ++ "}"
        ++ ("-spec" : str))
     = ("src/" : str) ++ "("
       ++ join "|" ["unit" : str; "e2e" : str; "api" : str] ++ ")"
       ++ ("-spec" : str)
  /\ path_pattern_test Frag.re
       (("src/" : str) ++ "{"
        ++ join "," ["unit" : str; "e2e" : str; "api" : str] ++ "}"
        ++ ("-spec" : str))
       "src/e2e-spec/login.ts"
     = Ok (existsb
             (fun alt =>
                startswith (("src/" : str) ++ alt ++ ("-spec" : str))
                  "src/e2e-spec/login.ts")
             ["unit" : str; "e2e" : str; "api" : str]).
Proof.
  split; [exact frag_agrees|]. split; [reflexivity|]. split; [reflexivity|].
  split; [reflexivity|]. split; [discriminate|].
  apply (brace_group_matches_some_alternative Frag.re "src/" "-spec"
           ["unit" : str; "e2e" : str; "api" : str] "src/e2e-spec/login.ts"
           frag_agrees); try reflexivity.
  discriminate.
Defined.

Lemma glob_to_regex_lone_brace (pre post : str) (b : ascii) :
  plain pre = true -> plain post = true ->
  b = "{"%char \/ b = "}"%char ->
  glob_to_regex (pre ++ b :: post)
  = pre ++ subst_char "}" ")" (subst_char "{" "(" b) :: post.
Proof.
  intros Hpre Hpost Hb.
  assert (Hstar : ~ In "*"%char (pre ++ b :: post)).
  { apply not_In_app; [apply plain_not_In; [exact Hpre | in_list]|].
    intros [H|H].
    - destruct Hb as [-> | ->]; discriminate H.
    - revert H. apply plain_not_In; [exact Hpost | in_list]. }
  rewrite (glob_to_regex_no_star _ Hstar).
  change (pre ++ b :: post) with (pre ++ [b] ++ post).
  rewrite !brace_subst_app, (brace_subst_plain pre Hpre),
    (brace_subst_plain post Hpost).
  destruct Hb as [-> | ->]; reflexivity.
Qed.

Lemma compile_lone_parenthesis (pre post : str) (c : ascii) :
  plain pre = true -> plain post = true ->
  c = "("%char \/ c = ")"%char ->
  Frag.compile (pre ++ c :: post) = Frag.Malformed.
Proof.
  intros Hpre Hpost Hc. unfold Frag.compile, Frag.tokenize.
  rewrite (@tokens_from_plain pre _ Hpre).
  destruct Hc as [-> | ->].
  - rewrite tokens_from_open, (tokens_from_plain_end post Hpost).
    cbn [option_map]. rewrite parse_literals. cbn [Frag.parse].
    rewrite <- (app_nil_r (map Frag.TLit post)), parse_literals.
    reflexivity.
  - rewrite tokens_from_close, (tokens_from_plain_end post Hpost).
    cbn [option_map]. rewrite parse_literals. reflexivity.
Qed.

(** X10.  A glob with a brace that is never closed, or closed but never
    opened, among plain text does not compile; the scorer passes over it:
    the test raises [re.error] inside the [try], and the loop over the
    patterns goes on as if the pattern were not in the list. *)
Theorem unbalanced_brace_is_passed_over (re : re_module)
    (pre post : str) (b : ascii) (path : str) (rest : list str) :
  Frag.agrees re ->
  plain pre = true ->
  plain post = true ->
  b = "{"%char \/ b = "}"%char ->
  path_pattern_test re (pre ++ b :: post) path = Raise re_error
  /\ patterns_loop re ((pre ++ b :: post) :: rest) path
     = patterns_loop re rest path.
Proof.
  intros Hre Hpre Hpost Hb.
  assert (Ht : path_pattern_test re (pre ++ b :: post) path = Raise re_error).
  { unfold path_pattern_test. cbn [documented call_match call_result].
    specialize (Hre (glob_to_regex (pre ++ b :: post)) path).
    rewrite (glob_to_regex_lone_brace pre post b Hpre Hpost Hb) in Hre |- *.
    rewrite compile_lone_parenthesis in Hre;
      [now rewrite Hre | exact Hpre | exact Hpost |].
    destruct Hb as [-> | ->]; [now left | now right]. }
  split; [exact Ht|]. cbn [patterns_loop]. now rewrite Ht.
Qed.

Lemma unbalanced_brace_is_passed_over_witness :
  Frag.agrees Frag.re
  /\ plain "src/" = true
  /\ plain "a/b" = true
  /\ ("{"%char = "{"%char \/ "{"%char = "}"%char)
  /\ path_pattern_test Frag.re (("src/" : str) ++ "{"%char :: ("a/b" : str))
       "src/a/b" = Raise re_error
  /\ patterns_loop Frag.re
       ((("src/" : str) ++ "{"%char :: ("a/b" : str)) :: ["src" : str])
       "src/a/b"
     = patterns_loop Frag.re ["src" : str] "src/a/b".
Proof.
  split; [exact frag_agrees|]. split; [reflexivity|]. split; [reflexivity|].
  split; [now left|].
  apply (unbalanced_brace_is_passed_over Frag.re "src/" "a/b" "{"%char
           "src/a/b" ["src" : str] frag_agrees); try reflexivity.
  now left.
Defined.

(** ** Reading the output of git *)

Lemma lstrip_blanks (ws s : str) :
  forallb isspace ws = true -> lstrip (ws ++ s) = lstrip s.
Proof.
  induction ws as [|c ws IH]; intros H; [reflexivity|].
  cbn [forallb] in H. apply andb_true_iff in H as [Hc H].
  cbn [app lstrip]. rewrite Hc. now apply IH.
Qed.

Lemma lstrip_nonspace (c : ascii) (s : str) :
  nonspace c = true -> lstrip (c :: s) = c :: s.
Proof.
  unfold nonspace. intros H. cbn [lstrip].
  now destruct (isspace c).
Qed.

Lemma blank_isspace (ws : str) :
  forallb blank ws = true -> forallb isspace ws = true.
Proof.
  rewrite !forallb_forall. intros H c Hc. specialize (H c Hc).
  unfold blank in H. now apply andb_true_iff in H as [H _].
Qed.

Lemma rstrip_ends_nonspace (s : str) (d : ascii) (t : str) :
  rev s = d :: t -> nonspace d = true -> rstrip s = s.
Proof.
  intros E Hd. unfold rstrip. rewrite E, (lstrip_nonspace d t Hd), <- E.
  apply rev_involutive.
Qed.

Lemma rev_app_head (x s : str) (d : ascii) (t : str) :
  rev s = d :: t -> rev (x ++ s) = d :: t ++ rev x.
Proof. intros E. now rewrite rev_app_distr, E. Qed.

Lemma span_word_word (w : str) (c : ascii) (s : str) :
  forallb nonspace w = true -> isspace c = true ->
  span_word (w ++ c :: s) = (w, c :: s).
Proof.
  intros Hw Hc. induction w as [|a w IH]; cbn [app span_word].
  - now rewrite Hc.
  - cbn [forallb] in Hw. apply andb_true_iff in Hw as [Ha Hw].
    unfold nonspace in Ha. destruct (isspace a); [discriminate|].
    now rewrite (IH Hw).
Qed.

Lemma trimmed_inv (s : str) :
  trimmed s = true ->
  exists c s' d t,
    s = c :: s' /\ rev s = d :: t
    /\ nonspace c = true /\ nonspace d = true
    /\ ~ In newline_char s.
Proof.
  unfold trimmed. destruct s as [|c s']; [discriminate|].
  destruct (rev (c :: s')) as [|d t] eqn:E; [discriminate|].
  intros H. apply andb_true_iff in H as [H Hnl].
  apply andb_true_iff in H as [Hc Hd].
  exists c, s', d, t. repeat split; try assumption.
  intros Hin. apply negb_true_iff in Hnl.
  assert (X : existsb (Ascii.eqb newline_char) (c :: s') = true).
  { apply existsb_exists. exists newline_char.
    split; [exact Hin | apply Ascii.eqb_refl]. }
  congruence.
Qed.

(** One line gives its path back. *)
Lemma status_line_parts (e : status_entry) :
  valid_entry e = true ->
  split_maxsplit1 (strip (status_line e)) = [code e; path e]
  /\ strip (status_line e) = code e ++ gap e ++ path e.
Proof.
  unfold valid_entry, status_line. destruct e as [ld cd gp pt]. cbn [lead code gap path].
  intros H. apply andb_true_iff in H as [H Hpath].
  apply andb_true_iff in H as [H Hgap].
  apply andb_true_iff in H as [Hlead Hcode].
  destruct cd as [|c cd]; [discriminate|].
  destruct gp as [|g gp]; [discriminate|].
  destruct (trimmed_inv pt Hpath) as (p & pt' & d & t & -> & Erev & Hp & Hd & _).
  assert (Hcn : nonspace c = true)
    by (cbn [forallb] in Hcode; now apply andb_true_iff in Hcode as [? _]).
  assert (Hg : isspace g = true).
  { apply blank_isspace in Hgap. cbn [forallb] in Hgap.
    now apply andb_true_iff in Hgap as [? _]. }
  assert (Hstrip : strip (ld ++ (c :: cd) ++ (g :: gp) ++ p :: pt')
                   = (c :: cd) ++ (g :: gp) ++ p :: pt').
  { unfold strip. rewrite (lstrip_blanks ld _ (blank_isspace ld Hlead)).
    cbn [app]. rewrite (lstrip_nonspace c _ Hcn).
    apply (rstrip_ends_nonspace _ d (t ++ rev (c :: cd ++ g :: gp))).
    - replace (c :: cd ++ g :: gp ++ p :: pt')
        with ((c :: cd ++ g :: gp) ++ p :: pt')
        by (cbn [app]; now rewrite <- app_assoc).
      now apply rev_app_head.
    - exact Hd. }
  split; [|exact Hstrip]. rewrite Hstrip. unfold split_maxsplit1.
  cbn [app]. rewrite (lstrip_nonspace c _ Hcn).
  change (c :: cd ++ g :: gp ++ p :: pt')
    with ((c :: cd) ++ g :: gp ++ p :: pt').
  rewrite (span_word_word (c :: cd) g _ Hcode Hg).
  change (g :: gp ++ p :: pt') with ((g :: gp) ++ p :: pt').
  rewrite (lstrip_blanks (g :: gp) _ (blank_isspace _ Hgap)).
  now rewrite (lstrip_nonspace p pt' Hp).
Qed.

Lemma isspace_newline : isspace newline_char = true.
Proof. reflexivity. Qed.

Lemma blank_no_newline (ws : str) :
  forallb blank ws = true -> ~ In newline_char ws.
Proof.
  rewrite forallb_forall. intros H Hin. specialize (H _ Hin).
  unfold blank in H. apply andb_true_iff in H as [_ H].
  now rewrite Ascii.eqb_refl in H.
Qed.

Lemma nonspace_no_newline (w : str) :
  forallb nonspace w = true -> ~ In newline_char w.
Proof.
  rewrite forallb_forall. intros H Hin. specialize (H _ Hin).
  unfold nonspace in H. now rewrite isspace_newline in H.
Qed.

Lemma valid_without_lead (e : status_entry) :
  valid_entry e = true -> valid_entry (without_lead e) = true.
Proof.
  unfold valid_entry. cbn [without_lead lead code gap path forallb].
  intros H. apply andb_true_iff in H as [H Hpath].
  apply andb_true_iff in H as [H Hgap].
  apply andb_true_iff in H as [_ Hcode].
  now rewrite Hcode, Hgap, Hpath.
Qed.

Lemma status_line_facts (e : status_entry) :
  valid_entry e = true ->
  ~ In newline_char (status_line e)
  /\ status_line e <> []
  /\ (exists c s, status_line (without_lead e) = c :: s
                  /\ nonspace c = true)
  /\ (exists d t, rev (status_line (without_lead e)) = d :: t
                  /\ nonspace d = true).
Proof.
  intros H. pose proof H as Hv. unfold valid_entry in H.
  apply andb_true_iff in H as [H Hpath].
  apply andb_true_iff in H as [H Hgap].
  apply andb_true_iff in H as [Hlead Hcode].
  unfold status_line. cbn [without_lead lead code gap path app].
  destruct (code e) as [|c cd] eqn:Ec; [discriminate|].
  destruct (gap e) as [|g gp] eqn:Eg; [discriminate|].
  destruct (trimmed_inv (path e) Hpath)
    as (p & pt' & d & t & Ep & Erev & Hp & Hd & Hnl).
  split; [|split; [|split]].
  - apply not_In_app; [now apply blank_no_newline|].
    apply not_In_app; [now apply nonspace_no_newline|].
    apply not_In_app; [now apply blank_no_newline | exact Hnl].
  - intros E. apply (f_equal (@length ascii)) in E.
    rewrite !length_app in E. cbn [length] in E. lia.
  - exists c, (cd ++ (g :: gp) ++ path e). split; [reflexivity|].
    cbn [forallb] in Hcode. now apply andb_true_iff in Hcode as [? _].
  - exists d, (t ++ rev ((c :: cd) ++ g :: gp)). split; [|exact Hd].
    replace ((c :: cd) ++ (g :: gp) ++ path e)
      with (((c :: cd) ++ g :: gp) ++ path e)
      by now rewrite <- app_assoc.
    now apply rev_app_head.
Qed.

Lemma split_char_line (sep : ascii) (l s : str) :
  ~ In sep l -> split_char sep (l ++ sep :: s) = l :: split_char sep s.
Proof.
  induction l as [|c l IH]; intros H; cbn [app split_char].
  - now rewrite Ascii.eqb_refl.
  - destruct (Ascii.eqb_spec c sep) as [->|_]; [exfalso; apply H; now left|].
    rewrite IH; [reflexivity|]. intros Hin. apply H. now right.
Qed.

Lemma split_char_last (sep : ascii) (l : str) :
  ~ In sep l -> split_char sep l = [l].
Proof.
  induction l as [|c l IH]; intros H; cbn [split_char]; [reflexivity|].
  destruct (Ascii.eqb_spec c sep) as [->|_]; [exfalso; apply H; now left|].
  rewrite IH; [reflexivity|]. intros Hin. apply H. now right.
Qed.

Lemma split_char_join (sep : ascii) (l : str) (ls : list str) :
  (forall x, In x (l :: ls) -> ~ In sep x) ->
  split_char sep (join [sep] (l :: ls)) = l :: ls.
Proof.
  revert l; induction ls as [|m ls IH]; intros l H.
  - cbn [join]. apply split_char_last, H. now left.
  - change (join [sep] (l :: m :: ls)) with (l ++ sep :: join [sep] (m :: ls)).
    rewrite split_char_line by (apply H; now left).
    rewrite IH; [reflexivity|]. intros x Hx. apply H. now right.
Qed.

Lemma unlines_join (l : str) (ls : list str) :
  unlines (l :: ls) = join nl (l :: ls) ++ nl.
Proof.
  revert l; induction ls as [|m ls IH]; intros l.
  - cbn [unlines flat_map join]. now rewrite app_nil_r.
  - change (unlines (l :: m :: ls)) with ((l ++ nl) ++ unlines (m :: ls)).
    change (join nl (l :: m :: ls)) with (l ++ nl ++ join nl (m :: ls)).
    rewrite IH. now rewrite <- !app_assoc.
Qed.

Lemma rev_join_ends_nonspace (l : str) (ls : list str) :
  (forall x, In x (l :: ls) ->
             exists d t, rev x = d :: t /\ nonspace d = true) ->
  exists d t, rev (join nl (l :: ls)) = d :: t /\ nonspace d = true.
Proof.
  revert l; induction ls as [|m ls IH]; intros l H.
  - cbn [join]. apply H. now left.
  - change (join nl (l :: m :: ls)) with (l ++ nl ++ join nl (m :: ls)).
    destruct (IH m (fun x Hx => H x (or_intror Hx))) as (d & t & E & Hd).
    exists d, (t ++ rev (l ++ nl)). split; [|exact Hd].
    rewrite app_assoc. now apply rev_app_head.
Qed.

(** The lines of the stripped output are the lines that were written. *)
Lemma strip_unlines (e : status_entry) (es : list status_entry) :
  forallb valid_entry (e :: es) = true ->
  strip (unlines (map status_line (e :: es)))
  = join nl (map status_line (without_lead e :: es)).
Proof.
  intros H. pose proof H as Hall. rewrite forallb_forall in Hall.
  cbn [forallb] in H. apply andb_true_iff in H as [He Hes].
  assert (Hlead : forallb isspace (lead e) = true).
  { apply blank_isspace. unfold valid_entry in He.
    apply andb_true_iff in He as [He _]. apply andb_true_iff in He as [He _].
    now apply andb_true_iff in He as [He _]. }
  destruct (status_line_facts e He) as (_ & _ & (c & s & Ec & Hc) & _).
  assert (Hl : lstrip (unlines (map status_line (e :: es)))
               = unlines (map status_line (without_lead e :: es))).
  { cbn [map unlines flat_map].
    change (status_line e) with (lead e ++ status_line (without_lead e)).
    rewrite <- !app_assoc, (lstrip_blanks (lead e) _ Hlead), Ec.
    cbn [app]. now apply lstrip_nonspace. }
  unfold strip. rewrite Hl. cbn [map]. rewrite unlines_join.
  destruct (rev_join_ends_nonspace (status_line (without_lead e))
              (map status_line es)) as (d & t & Erev & Hd).
  { intros x [<-|Hx].
    - now destruct (status_line_facts e He) as (_ & _ & _ & Hend).
    - apply in_map_iff in Hx as (e' & <- & He').
      assert (Hv : valid_entry e' = true) by (apply Hall; now right).
      destruct (status_line_facts (without_lead e')
                  (valid_without_lead e' Hv)) as (_ & _ & _ & Hend).
      destruct (status_line_facts e' Hv) as (_ & _ & _ & (d & t & E & Hd)).
      unfold status_line in *. cbn [without_lead lead code gap path app] in *.
      exists d, (t ++ rev (lead e')). split; [|exact Hd].
      now apply rev_app_head. }
  unfold rstrip. rewrite rev_app_distr. cbn [nl rev app lstrip].
  rewrite isspace_newline, Erev, (lstrip_nonspace d t Hd), <- Erev.
  apply rev_involutive.
Qed.

Lemma collect_status_lines (es : list status_entry) (acc : list str) :
  forallb valid_entry es = true ->
  collect_modified (map status_line es) acc = acc ++ map path es.
Proof.
  revert acc; induction es as [|e es IH]; intros acc H.
  - cbn [map collect_modified]. now rewrite app_nil_r.
  - cbn [forallb] in H. apply andb_true_iff in H as [He Hes].
    destruct (status_line_facts e He) as (_ & Hne & _).
    destruct (status_line_parts e He) as [Hparts _].
    cbn [map collect_modified].
    destruct (status_line e) as [|c s] eqn:E; [contradiction|].
    rewrite Hparts. cbn [length Nat.eqb nth].
    rewrite (IH _ Hes). now rewrite <- app_assoc.
Qed.

(** X11.  Reading back what git wrote: for lines made of blanks, a status
    code, blanks and a path (the path not empty, without whitespace at its
    ends and without a newline), the list of modified files is exactly the
    list of the paths, in order, spaces inside a path kept. *)
Theorem git_status_lines_give_their_paths (es : list status_entry) :
  forallb valid_entry es = true ->
  parse_git_status (unlines (map status_line es)) = map path es
  /\ git_status_of (GitCompleted 0 (unlines (map status_line es)))
     = Some (map path es).
Proof.
  intros H.
  assert (Hp : parse_git_status (unlines (map status_line es))
               = map path es).
  { unfold parse_git_status. destruct es as [|e es]; [reflexivity|].
    rewrite (strip_unlines e es H). cbn [map]. unfold nl.
    rewrite split_char_join.
    - assert (Hv : forallb valid_entry (without_lead e :: es) = true).
      { cbn [forallb] in H |- *. apply andb_true_iff in H as [He Hes].
        now rewrite (valid_without_lead e He), Hes. }
      exact (collect_status_lines (without_lead e :: es) [] Hv).
    - rewrite forallb_forall in H. intros x [<-|Hx].
      + now destruct (status_line_facts (without_lead e)
                        (valid_without_lead e (H e (or_introl eq_refl))))
          as (Hnl & _).
      + apply in_map_iff in Hx as (e' & <- & He').
        now destruct (status_line_facts e' (H e' (or_intror He')))
          as (Hnl & _). }
  split; [exact Hp|]. cbn [git_status_of Z.eqb]. now rewrite Hp.
Qed.

Lemma git_status_lines_give_their_paths_witness :
  forallb valid_entry sample_entries = true
  /\ parse_git_status (unlines (map status_line sample_entries))
     = map path sample_entries
  /\ git_status_of
       (GitCompleted 0 (unlines (map status_line sample_entries)))
     = Some (map path sample_entries).
Proof.
  split; [reflexivity|].
  exact (git_status_lines_give_their_paths sample_entries eq_refl).
Defined.

(** ** The message and the script *)

Lemma format_entries_blocks (matched : list (str * str))
    (skills_ : list (str * SkillConfig)) (message : str) :
  format_entries matched skills_ message
  = message ++ concat (map (entry_block skills_) matched).
Proof.
  revert message; induction matched as [|[name reason] matched IH];
    intros message; cbn [format_entries map concat].
  - now rewrite app_nil_r.
  - rewrite IH. unfold entry_block. cbn [fst snd].
    now rewrite <- !app_assoc.
Qed.

Lemma contains_middle (a x b : str) : contains x (a ++ x ++ b) = true.
Proof. apply contains_spec. now exists a, b. Qed.

Lemma format_activation_message_ok (matched : list (str * str))
    (skill_rules : SkillRules) (skills_ : list (str * SkillConfig)) :
  skills skill_rules = Some skills_ ->
  format_activation_message matched skill_rules
  = Ok (match matched with
        | [] => []
        | _ :: _ =>
            header ++ concat (map (entry_block skills_) matched) ++ footer
        end).
Proof.
  intros Hs. unfold format_activation_message. rewrite Hs.
  destruct matched as [|m matched]; [reflexivity|].
  now rewrite format_entries_blocks, <- app_assoc.
Qed.

(** X12.  The message lists every matched skill, in the order of the
    result, between the heading and the closing lines: each skill with its
    activation message (the configured one, or "Consider using NAME
    skill"), its reason and its location; for no skill the message is
    empty, and otherwise it is not. *)
Theorem message_lists_every_skill (matched : list (str * str))
    (skill_rules : SkillRules) (skills_ : list (str * SkillConfig)) :
  skills skill_rules = Some skills_ ->
  exists message,
    format_activation_message matched skill_rules = Ok message
    /\ (matched = [] -> message = [])
    /\ (matched <> [] ->
        message
        = header ++ concat (map (entry_block skills_) matched) ++ footer)
    /\ (message = [] <-> matched = [])
    /\ forall entry,
         In entry matched ->
         contains (entry_block skills_ entry) message = true.
Proof.
  intros Hs. rewrite (format_activation_message_ok matched skill_rules skills_ Hs).
  destruct matched as [|m matched].
  - exists []. split; [reflexivity|]. split; [intros _; reflexivity|].
    split; [intros H; now destruct H|].
    split; [split; intros _; reflexivity | intros ? []].
  - eexists. split; [reflexivity|]. split; [discriminate|].
    split; [reflexivity|]. split; [split; discriminate|].
    intros entry Hin. apply in_split in Hin as (l1 & l2 & ->).
    rewrite map_app, concat_app. cbn [map concat].
    rewrite <- !app_assoc, (app_assoc header).
    apply contains_middle.
Qed.

Lemma message_lists_every_skill_witness :
  skills sample_rules = Some (get (skills sample_rules) [])
  /\ exists message,
       format_activation_message
         [("network" : str, "Prompt keywords/patterns matched" : str)]
         sample_rules = Ok message
       /\ ([("network" : str, "Prompt keywords/patterns matched" : str)] = []
           -> message = [])
       /\ ([("network" : str, "Prompt keywords/patterns matched" : str)] <> []
           -> message
              = header
                ++ concat
                     (map (entry_block (get (skills sample_rules) []))
                        [("network" : str,
                          "Prompt keywords/patterns matched" : str)])
                ++ footer)
       /\ (message = []
           <-> [("network" : str, "Prompt keywords/patterns matched" : str)]
               = [])
       /\ forall entry,
            In entry
              [("network" : str, "Prompt keywords/patterns matched" : str)] ->
            contains (entry_block (get (skills sample_rules) []) entry)
              message = true.
Proof.
  split; [reflexivity|].
  exact (message_lists_every_skill
           [("network" : str, "Prompt keywords/patterns matched" : str)]
           sample_rules (get (skills sample_rules) []) eq_refl).
Defined.




Lemma lstrip_all_blank (s : str) : forallb isspace s = true -> lstrip s = [].
Proof.
  intros H. rewrite <- (app_nil_r s). now rewrite (lstrip_blanks s [] H).
Qed.

Lemma git_gives_nothing_no_file (run : git_run) :
  git_gives_nothing run = true ->
  git_status_of run = None \/ git_status_of run = Some [].
Proof.
  destruct run as [rc out| |]; cbn [git_gives_nothing git_status_of];
    [|now left..].
  destruct (rc =? 0)%Z; [|now left]. cbn [negb orb]. intros H. right.
  unfold parse_git_status, strip. now rewrite (lstrip_all_blank out H).
Qed.

Lemma analyze_file_context_no_file (re : re_module)
    (git_status : option (list str)) (skill_rules : SkillRules) :
  git_status = None \/ git_status = Some [] ->
  analyze_file_context re git_status skill_rules = Ok [].
Proof.
  intros [-> | ->]; [reflexivity|]. unfold analyze_file_context.
  induction (get (skills skill_rules) []) as [|[n sc] items IH];
    [reflexivity | exact IH].
Qed.

(** X14.  When git fails (a non-zero exit, a timeout, no git at all) or
    prints nothing, no skill matches by file context and the script goes on
    with the prompt alone: every entry of the result matched by the prompt
    and carries the prompt reason. *)
Theorem without_git_only_the_prompt_counts (re : re_module)
    (set_iter : pyset -> list str) (prompt : str) (run : git_run)
    (skill_rules : SkillRules) :
  iterates set_iter ->
  git_gives_nothing run = true ->
  analyze_file_context re (git_status_of run) skill_rules = Ok []
  /\ exists pm res,
       analyze_prompt re prompt skill_rules = Ok pm
       /\ main re set_iter prompt (git_status_of run) skill_rules = Ok res
       /\ forall name reason,
            In (name, reason) res ->
            In name pm
            /\ reason = ("Prompt keywords/patterns matched" : str).
Proof.
  intros Hiter Hrun.
  pose proof (analyze_file_context_no_file re (git_status_of run) skill_rules
                (git_gives_nothing_no_file run Hrun)) as Hcm.
  split; [exact Hcm|].
  destruct (activation_enabled skill_rules) eqn:Hen.
  - destruct (@main_enabled re set_iter prompt (git_status_of run)
                skill_rules Hiter Hen) as (pm & cm & Hpm & Hcm' & Hmain).
    rewrite Hcm in Hcm'. injection Hcm' as <-.
    exists pm. eexists. split; [exact Hpm|]. split; [exact Hmain|].
    intros name reason Hin.
    apply in_map_iff in Hin as (n & [= <- <-] & Hn).
    destruct (slice_to_firstn (max_skills_of skill_rules)
                (sort_by (rank_of (get (skills skill_rules) []))
                   (set_iter (set_union pm [])))) as [k Hk].
    rewrite Hk in Hn. apply firstn_In in Hn.
    apply (Permutation_in _ (sort_by_perm _ _)) in Hn.
    apply (Permutation_in _ (Hiter _)) in Hn.
    cbn [set_union fold_left] in Hn. split; [exact Hn|].
    rewrite reason_of_cases.
    apply set_mem_In in Hn. rewrite Hn. reflexivity.
  - destruct (analyze_prompt_spec re prompt skill_rules) as (pm & Hpm & _).
    exists pm, []. split; [exact Hpm|].
    split; [now apply main_disabled | intros ? ? []].
Qed.

Lemma without_git_only_the_prompt_counts_witness :
  iterates insertion_order
  /\ git_gives_nothing (GitCompleted 128 "fatal: not a git repository") = true
  /\ analyze_file_context Frag.re
       (git_status_of (GitCompleted 128 "fatal: not a git repository"))
       sample_rules = Ok []
  /\ exists pm res,
       analyze_prompt Frag.re sample_prompt sample_rules = Ok pm
       /\ main Frag.re insertion_order sample_prompt
            (git_status_of (GitCompleted 128 "fatal: not a git repository"))
            sample_rules = Ok res
       /\ forall name reason,
            In (name, reason) res ->
            In name pm
            /\ reason = ("Prompt keywords/patterns matched" : str).
Proof.
  split; [exact insertion_order_iterates|]. split; [reflexivity|].
  exact (without_git_only_the_prompt_counts Frag.re insertion_order
           sample_prompt (GitCompleted 128 "fatal: not a git repository")
           sample_rules insertion_order_iterates eq_refl).
Defined.

(** The sample tree, read and scored. *)
Example sample_script_run :
  git_status_of (sample_git ".")
  = Some ["src/app.test.ts" : str; "notes one.txt" : str;
          "old.py -> new.py" : str]
  /\ script Frag.re insertion_order sample_argv RulesNotFound sample_subprocess
     = Returned None
  /\ exists message,
       script Frag.re insertion_order sample_argv (RulesLoaded sample_rules)
         sample_subprocess = Returned (Some message)
       /\ contains "Consider using voip-tests skill" message = true
       /\ contains "   Location: .claude-library/skills/network/" message
          = true.
Proof.
  split; [vm_compute; reflexivity|]. split; [vm_compute; reflexivity|].
  eexists. split; [vm_compute; reflexivity|].
  split; vm_compute; reflexivity.
Qed.
